(** * Signed division and modulo helpers of the runtime library

    A shallow embedding of [runtime/lib/divsi3.c] (the sign-normalising
    wrapper [__divsi3] around the unsigned divider [__udivsi3]) and of the
    conformance test of [__modti3] (the test's [test__modti3] and [main]),
    with the theorems relating them to the specification of the division
    and modulo family.

    Machine integers are mathematical integers ([Z]) together with the
    conversion that the C type performs: a value of type [si_int] is a [Z]
    in [-2^31, 2^31), a value of type [su_int] a [Z] in [0, 2^32), and every
    arithmetic operation is followed by the reduction of its type. *)

From Stdlib Require Import ZArith Lia List String Ascii Bool.
From Stdlib Require Import Sorted Permutation.
Import ListNotations.

Local Open Scope Z_scope.

(** ** Native words: [si_int] and [su_int] *)

(** [sizeof(si_int)] and [CHAR_BIT]; the header declaring them
    ([int_lib.h]) is not part of the sources, the specification fixes the
    native word at 32 bits. *)
Definition sizeof_si_int : Z := 4.
Definition CHAR_BIT : Z := 8.

Definition si_bits : Z := sizeof_si_int * CHAR_BIT.

Definition su_modulus : Z := 2 ^ si_bits.
Definition si_half : Z := 2 ^ (si_bits - 1).

Definition si_min : Z := - si_half.
Definition si_max : Z := si_half - 1.

(** The values of the two types. *)
Definition si_range (x : Z) : Prop := si_min <= x <= si_max.
Definition su_range (x : Z) : Prop := 0 <= x < su_modulus.

(** Conversion to [su_int]: reduction modulo 2^32. *)
Definition to_su (x : Z) : Z := x mod su_modulus.

(** Conversion to [si_int]: the two's-complement reading of the low 32
    bits. *)
Definition to_si (x : Z) : Z := (x + si_half) mod su_modulus - si_half.

(** [x >> n] on [si_int]: arithmetic shift, the sign bit is replicated. *)
Definition si_shr (x n : Z) : Z := Z.shiftr x n.

(** [x ^ y]; on [Z] the exclusive or is the two's-complement one, so the
    same function serves both types (operands of type [su_int] are
    non-negative, and so is their result). *)
Definition si_xor (x y : Z) : Z := Z.lxor x y.
Definition su_xor (x y : Z) : Z := Z.lxor x y.

(** [x - y], [x * y], [x + y] and [-x] at type [si_int], wrapping. *)
Definition si_sub (x y : Z) : Z := to_si (x - y).
Definition si_mul (x y : Z) : Z := to_si (x * y).
Definition si_add (x y : Z) : Z := to_si (x + y).
Definition si_neg (x : Z) : Z := to_si (- x).

(** [x - y] at type [su_int]. *)
Definition su_sub (x y : Z) : Z := to_su (x - y).

(** ** [__divsi3] *)

Section Divsi3.

(** [su_int __udivsi3(su_int n, su_int d);] is declared in [divsi3.c]
    and defined elsewhere. *)
Variable __udivsi3 : Z -> Z -> Z.

Definition bits_in_word_m1 : Z := sizeof_si_int * CHAR_BIT - 1.

(** The body of [__divsi3], statement by statement.  The two arguments
    of [__udivsi3] are converted to [su_int] by the call; its result, a
    [su_int], makes [^] and [-] of the last line unsigned operations (the
    mask is converted to [su_int]), and the [return] converts to
    [si_int]. *)
Definition __divsi3 (a b : Z) : Z :=
  let s_a := si_shr a bits_in_word_m1 in
  let s_b := si_shr b bits_in_word_m1 in
  let a := si_sub (si_xor a s_a) s_a in
  let b := si_sub (si_xor b s_b) s_b in
  let s_a := si_xor s_a s_b in
  to_si (su_sub (su_xor (__udivsi3 (to_su a) (to_su b)) (to_su s_a))
                (to_su s_a)).

(** The idiom of lines 27 and 29 on its own: [(x ^ s) - s] with
    [s = x >> 31]. *)
Definition negate_if_negative (x : Z) : Z :=
  let s := si_shr x bits_in_word_m1 in
  si_sub (si_xor x s) s.

(** Modelled from the spec: [modulo_native] has no source file here; the
    specification's division identity determines it as
    [a - divide_native(a, b) * b] in [si_int] arithmetic. *)
Definition modulo_native (a b : Z) : Z :=
  si_sub a (si_mul (__divsi3 a b) b).

End Divsi3.

(** "Exactly one of [a] and [b] is negative". *)
Definition exactly_one_negative (a b : Z) : Prop :=
  (a < 0 /\ 0 <= b) \/ (0 <= a /\ b < 0).

(** "[r] has the sign of [a] or is zero". *)
Definition sign_of_or_zero (r a : Z) : Prop :=
  (0 < r -> 0 < a) /\ (r < 0 -> a < 0).

(** The unsigned divider that the contract of [__udivsi3] describes. *)
Definition udivsi3_ref (n d : Z) : Z := n / d.

(** ** Double-width integers: [ti_int], [tu_int] and their halves *)

Definition di_bits : Z := 64.
Definition ti_bits : Z := 2 * di_bits.

Definition du_modulus : Z := 2 ^ di_bits.
Definition di_half : Z := 2 ^ (di_bits - 1).
Definition tu_modulus : Z := 2 ^ ti_bits.
Definition ti_half : Z := 2 ^ (ti_bits - 1).

Definition ti_min : Z := - ti_half.
Definition ti_max : Z := ti_half - 1.

Definition ti_range (x : Z) : Prop := ti_min <= x <= ti_max.
Definition tu_range (x : Z) : Prop := 0 <= x < tu_modulus.

Definition to_du (x : Z) : Z := x mod du_modulus.
Definition to_di (x : Z) : Z := (x + di_half) mod du_modulus - di_half.
Definition to_tu (x : Z) : Z := x mod tu_modulus.
Definition to_ti (x : Z) : Z := (x + ti_half) mod tu_modulus - ti_half.

Definition ti_shr (x n : Z) : Z := Z.shiftr x n.
Definition ti_xor (x y : Z) : Z := Z.lxor x y.
Definition ti_sub (x y : Z) : Z := to_ti (x - y).

(** Modelled from the spec: the union [twords] of [int_lib.h] is not part
    of the sources.  A double-width integer is the pair of its halves,
    read as [high * 2^W + low]; [low] holds magnitude bits only and the
    top bit of [high] is the sign of the whole. *)
Record twords : Set := mk_twords { low : Z; high : Z }.

(** [t.all = x; ... t.s.high, t.s.low] *)
Definition twords_of_all (x : Z) : twords :=
  {| low := to_du x; high := to_di (Z.shiftr x di_bits) |}.

(** [... t.all] *)
Definition twords_all (t : twords) : Z := high t * du_modulus + low t.

(** Modelled from the spec: [make_ti] of [int_lib.h] is not part of the
    sources; it composes a double-width integer from a [di_int] high word
    and a low word. *)
Definition make_ti (h l : Z) : Z :=
  twords_all {| low := to_du l; high := to_di h |}.

(** ** The test of [__modti3] *)

(** What a run of the test program can change: the text written to the
    standard output, and the log of the operand pairs [__modti3] was
    called on (kept to tell which cases a run executed). *)
Record world : Set := mk_world { stdout : string; calls : list (Z * Z) }.

(** The world a run starts in. *)
Definition w0 : world := {| stdout := ""; calls := [] |}.

Definition prog (A : Type) : Type := world -> A * world.

Definition ret {A : Type} (x : A) : prog A := fun w => (x, w).

Definition bind {A B : Type} (m : prog A) (k : A -> prog B) : prog B :=
  fun w => let (x, w') := m w in k x w'.

Notation "x <- m ;; k" := (bind m (fun x => k))
  (at level 61, m at next level, right associativity).
Notation "m ;; k" := (bind m (fun _ => k))
  (at level 61, right associativity).

(** [if (c) return v; k] *)
Notation "'IF' c 'RETURN' v ;; k" :=
  (bind c (fun r : Z => if r =? 0 then k else ret v))
  (at level 61, c at next level, v at next level, right associativity).

Definition printf (s : string) : prog unit :=
  fun w => (tt, {| stdout := stdout w ++ s; calls := calls w |}).

Definition newline : string := String (ascii_of_nat 10) EmptyString.

(** One hexadecimal digit, upper case as [%X] prints it. *)
Definition hex_digit (d : Z) : ascii :=
  if d <? 10 then ascii_of_nat (Z.to_nat (48 + d))
  else ascii_of_nat (Z.to_nat (55 + d)).

Fixpoint hex_digits (n : nat) (x : Z) (acc : string) : string :=
  match n with
  | O => acc
  | S n' => hex_digits n' (x / 16) (String (hex_digit (x mod 16)) acc)
  end.

(** The conversion [%.16llX]: the argument read as an
    [unsigned long long], in 16 hexadecimal digits padded with zeros. *)
Definition fmt_16llX (x : Z) : string := hex_digits 16 (to_du x) "".

(** Reading hexadecimal text back, to say what [fmt_16llX] printed. *)
Definition hex_digit_value (c : ascii) : Z :=
  let n := Z.of_nat (nat_of_ascii c) in
  if n <? 58 then n - 48 else n - 55.

Fixpoint hex_value (s : string) (acc : Z) : Z :=
  match s with
  | EmptyString => acc
  | String c s' => hex_value s' (16 * acc + hex_digit_value c)
  end.

(** The line [test__modti3] prints: the format string of its [printf]
    with the eight conversions filled in. *)
Definition diagnostic (a b x expected : Z) : string :=
  let at_ := twords_of_all a in
  let bt := twords_of_all b in
  let xt := twords_of_all x in
  let expectedt := twords_of_all expected in
  ("error in __modti3: 0x" ++ fmt_16llX (high at_) ++ fmt_16llX (low at_)
   ++ " % 0x" ++ fmt_16llX (high bt) ++ fmt_16llX (low bt)
   ++ " = 0x" ++ fmt_16llX (high xt) ++ fmt_16llX (low xt)
   ++ ", expected 0x" ++ fmt_16llX (high expectedt)
   ++ fmt_16llX (low expectedt) ++ newline)%string.

Section Modti3Test.

(** [ti_int __modti3(ti_int a, ti_int b);] is declared in the test and
    defined elsewhere. *)
Variable __modti3 : Z -> Z -> Z.

(** The preprocessor condition [#if __x86_64]. *)
Variable __x86_64 : bool.

Definition call__modti3 (a b : Z) : prog Z :=
  fun w => (__modti3 a b,
            {| stdout := stdout w; calls := calls w ++ [(a, b)] |}).

Definition test__modti3 (a b expected : Z) : prog Z :=
  x <- call__modti3 a b ;;
  (if negb (x =? expected)
   then printf (diagnostic a b x expected)
   else ret tt) ;;
  ret (Z.b2z (negb (x =? expected))).

Definition main : prog Z :=
  if __x86_64 then
    IF test__modti3 0 1 0 RETURN 1 ;;
    IF test__modti3 0 (-1) 0 RETURN 1 ;;

    IF test__modti3 5 3 2 RETURN 1 ;;
    IF test__modti3 5 (-3) 2 RETURN 1 ;;
    IF test__modti3 (-5) 3 (-2) RETURN 1 ;;
    IF test__modti3 (-5) (-3) (-2) RETURN 1 ;;

    IF test__modti3 0x8000000000000000 1 0x0 RETURN 1 ;;
    IF test__modti3 0x8000000000000000 (-1) 0x0 RETURN 1 ;;
    IF test__modti3 0x8000000000000000 2 0x0 RETURN 1 ;;
    IF test__modti3 0x8000000000000000 (-2) 0x0 RETURN 1 ;;
    IF test__modti3 0x8000000000000000 3 2 RETURN 1 ;;
    IF test__modti3 0x8000000000000000 (-3) 2 RETURN 1 ;;

    IF test__modti3 (make_ti 0x8000000000000000 0) 1 0x0 RETURN 1 ;;
    IF test__modti3 (make_ti 0x8000000000000000 0) (-1) 0x0 RETURN 1 ;;
    IF test__modti3 (make_ti 0x8000000000000000 0) 2 0x0 RETURN 1 ;;
    IF test__modti3 (make_ti 0x8000000000000000 0) (-2) 0x0 RETURN 1 ;;
    IF test__modti3 (make_ti 0x8000000000000000 0) 3 (-2) RETURN 1 ;;
    IF test__modti3 (make_ti 0x8000000000000000 0) (-3) (-2) RETURN 1 ;;

    ret 0
  else
    ret 0.

(** The cases of [main] as a table [(a, b, expected)], in the order of
    the calls, and the loop that [main] unrolls. *)
Definition main_cases : list (Z * Z * Z) :=
  [ (0, 1, 0); (0, -1, 0);
    (5, 3, 2); (5, -3, 2); (-5, 3, -2); (-5, -3, -2);
    (0x8000000000000000, 1, 0); (0x8000000000000000, -1, 0);
    (0x8000000000000000, 2, 0); (0x8000000000000000, -2, 0);
    (0x8000000000000000, 3, 2); (0x8000000000000000, -3, 2);
    (make_ti 0x8000000000000000 0, 1, 0);
    (make_ti 0x8000000000000000 0, -1, 0);
    (make_ti 0x8000000000000000 0, 2, 0);
    (make_ti 0x8000000000000000 0, -2, 0);
    (make_ti 0x8000000000000000 0, 3, -2);
    (make_ti 0x8000000000000000 0, -3, -2) ].

Fixpoint run_cases (cs : list (Z * Z * Z)) : prog Z :=
  match cs with
  | [] => ret 0
  | (a, b, expected) :: cs' =>
      IF test__modti3 a b expected RETURN 1 ;; run_cases cs'
  end.

(** A case passes when [__modti3] returns the expected value. *)
Definition passes (c : Z * Z * Z) : Prop :=
  let '(a, b, expected) := c in __modti3 a b = expected.

Definition case_args (c : Z * Z * Z) : Z * Z := fst c.

Definition case_diagnostic (c : Z * Z * Z) : string :=
  let '(a, b, expected) := c in diagnostic a b (__modti3 a b) expected.

End Modti3Test.

(** The number of line ends in a text. *)
Fixpoint newlines (s : string) : nat :=
  match s with
  | EmptyString => O
  | String c s' =>
      ((if Ascii.eqb c (ascii_of_nat 10) then 1 else 0) + newlines s')%nat
  end.

(** A text that is exactly one line: some characters other than the line
    end, then the line end. *)
Definition one_line (s : string) : Prop :=
  exists body : string, s = (body ++ newline)%string /\ newlines body = O.

(** The digits [%X] prints: [0] to [9] and [A] to [F]. *)
Definition is_upper_hex_digit (c : ascii) : bool :=
  let n := nat_of_ascii c in
  ((48 <=? n) && (n <=? 57) || (65 <=? n) && (n <=? 70))%nat.

Fixpoint all_upper_hex (s : string) : bool :=
  match s with
  | EmptyString => true
  | String c s' => is_upper_hex_digit c && all_upper_hex s'
  end.

(** A field of the diagnostic: sixteen upper-case hexadecimal digits that
    read back as the 64 bits of [half]. *)
Definition hex_field (f : string) (half : Z) : Prop :=
  String.length f = 16%nat
  /\ all_upper_hex f = true
  /\ hex_value f 0 = to_du half.

(** The two fields of a double-width value: its high 64 bits, then its
    low 64 bits. *)
Definition hex_halves (fh fl : string) (v : Z) : Prop :=
  hex_field fh (Z.shiftr v 64) /\ hex_field fl v.

(** A text that is the diagnostic of the case [a % b = x, expected]: the
    words of the format string around eight fields, which are the halves
    of the two operands, of the result and of the expected value. *)
Definition renders (text : string) (a b x expected : Z) : Prop :=
  exists ah al bh bl xh xl eh el : string,
    text = ("error in __modti3: 0x" ++ ah ++ al
            ++ " % 0x" ++ bh ++ bl
            ++ " = 0x" ++ xh ++ xl
            ++ ", expected 0x" ++ eh ++ el ++ newline)%string
    /\ hex_halves ah al a
    /\ hex_halves bh bl b
    /\ hex_halves xh xl x
    /\ hex_halves eh el expected.

(** ** The double-width modulo that the specification describes *)

(** Modelled from the spec: the unsigned wide divider ([__udivmodti4] in
    the runtime library) is not part of the sources.  Its slow path is the
    bit-at-a-time restoring long division of the specification: the
    remainder accumulator [r] takes the bits of the numerator [n] from the
    most significant down, the denominator [d] is subtracted whenever it
    fits, and the quotient [q] receives the corresponding bit; arithmetic
    is that of [tu_int]. *)
Fixpoint long_division (i : nat) (n d q r : Z) : Z * Z :=
  match i with
  | O => (q, r)
  | S i' =>
      let r := to_tu (Z.lor (Z.shiftl r 1)
                            (Z.b2z (Z.testbit n (Z.of_nat i')))) in
      if d <=? r
      then long_division i' n d (to_tu (Z.lor (Z.shiftl q 1) 1))
                         (to_tu (r - d))
      else long_division i' n d (to_tu (Z.shiftl q 1)) r
  end.

(** Modelled from the spec: quotient and remainder of two [tu_int]; when
    both high halves are zero the single-width divider is applied twice
    (quotient, then remainder), otherwise the long division runs over the
    [2W] bits. *)
Definition divide_wide_unsigned (n d : Z) : Z * Z :=
  let nt := twords_of_all n in
  let dt := twords_of_all d in
  if (high nt =? 0) && (high dt =? 0)
  then (low nt / low dt, low nt - (low nt / low dt) * low dt)
  else long_division (Z.to_nat ti_bits) n d 0 0.

(** Modelled from the spec: [__modti3] (the specification's [modulo_wide])
    is not part of the sources.  It has the shape of [__divsi3] at double
    width: sign masks by arithmetic shift, both operands made non-negative
    by xor and subtract, the unsigned wide divider, and the remainder
    negated by the mask of the dividend, whose sign it takes. *)
Definition modulo_wide (a b : Z) : Z :=
  let bits_in_tword_m1 := ti_bits - 1 in
  let s_a := ti_shr a bits_in_tword_m1 in
  let s_b := ti_shr b bits_in_tword_m1 in
  let a := ti_sub (ti_xor a s_a) s_a in
  let b := ti_sub (ti_xor b s_b) s_b in
  let r := snd (divide_wide_unsigned (to_tu a) (to_tu b)) in
  ti_sub (ti_xor (to_ti r) s_a) s_a.

(** A divider that is the quotient on magnitudes (at most 2^31) and an
    arbitrary value elsewhere. *)
Definition udivsi3_on_magnitudes (n d : Z) : Z :=
  if (n <=? si_half) && (d <=? si_half) then n / d else 7.

(** ** The linker driver [tools/mcld/Main.cpp] *)

Module Mcld.

(** The values of the [llvm::cl] option objects once the command line is
    parsed.  A [cl::list] keeps, for each value, its position on the
    command line ([getPosition]); the two lists whose positions the driver
    reads carry them. *)
Class CommandLine : Type := {
  OptTargetTriple : string;
  OptOutputFilename : string;
  OptSysRoot : string;
  OptSearchDirList : list string;
  OptSOName : string;
  OptShared : bool;
  OptBsymbolic : bool;
  OptDyld : string;
  OptInputObjectFiles : list (string * nat);
  OptNameSpecList : list (string * nat);
  OptWrapList : list string;
  OptPortableList : list string }.

(** [bcc::LinkerConfig] is defined outside these sources; the driver only
    constructs it and calls its setters.  The object is the record of how
    it was constructed and of the setter calls made on it, in order. *)
Inductive config_setting : Type :=
| SOName (name : string)
| SysRoot (directory : string)
| Dyld (program : string)
| Wrap (symbol : string)
| Portable (symbol : string)
| SearchDir (searchdir : string)
| Shared (enable : bool)
| Bsymbolic (enable : bool).

Inductive config_constructor : Type :=
| DefaultLinkerConfig
| LinkerConfigOfTriple (triple : string).

Record LinkerConfig : Type :=
  { constructed : config_constructor; settings : list config_setting }.

Definition set (s : config_setting) (config : LinkerConfig) : LinkerConfig :=
  {| constructed := constructed config; settings := settings config ++ [s] |}.

Definition setSOName (name : string) := set (SOName name).
Definition setSysRoot (directory : string) := set (SysRoot directory).
Definition setDyld (program : string) := set (Dyld program).
Definition addWrap (symbol : string) := set (Wrap symbol).
Definition addPortable (symbol : string) := set (Portable symbol).
Definition addSearchDir (searchdir : string) := set (SearchDir searchdir).
Definition setShared (enable : bool) := set (Shared enable).
Definition setBsymbolic (enable : bool) := set (Bsymbolic enable).

(** [bcc::Linker] is defined outside these sources as well.  The state of
    the object is the sequence of the method calls it has received. *)
Inductive linker_call : Type :=
| CallConfig (config : LinkerConfig)
| CallSetOutput (path : string)
| CallAddObject (file : string)
| CallAddNameSpec (namespec : string)
| CallLink.

(** The result of [llvm::sys::fs::make_absolute]: the path made absolute,
    or the message of the error code. *)
Inductive absolute_result : Type :=
| AbsoluteOk (path : string)
| AbsoluteError (message : string).

(** What the driver takes from outside: the error codes of the linker and
    what each call on a linker returns given the calls before it, the path
    functions of LLVM, whether [new (std::nothrow)] returns an object, and
    the macros of the build. *)
Class Externals : Type := {
  ErrorCode : Type;
  kSuccess : ErrorCode;
  ErrorCode_eq_dec : forall x y : ErrorCode, {x = y} + {x <> y};
  GetErrorString : ErrorCode -> string;
  Linker_result : list linker_call -> linker_call -> ErrorCode;
  make_absolute : string -> absolute_result;
  remove_filename : string -> string;
  path_append : string -> string -> string;
  new_nothrow_succeeds : bool;
  TARGET_BUILD : bool;
  DEFAULT_TARGET_TRIPLE_STRING : string;
  MCLD_VERSION : string }.

(** What a run changes: the two output streams and the linker object. *)
Record state : Type :=
  { outs : string; errs : string; linker : list linker_call }.

Definition action (A : Type) : Type := state -> A * state.

Definition pure {A : Type} (x : A) : action A := fun s => (x, s).

Definition and_then {A B : Type} (m : action A) (k : A -> action B)
  : action B :=
  fun s => let (x, s') := m s in k x s'.

Declare Scope mcld_scope.
Delimit Scope mcld_scope with mcld.
Bind Scope mcld_scope with action.

Notation "x <- m ;; k" := (and_then m (fun x => k))
  (at level 61, m at next level, right associativity) : mcld_scope.
Notation "m ;; k" := (and_then m (fun _ => k))
  (at level 61, right associativity) : mcld_scope.

Local Open Scope mcld_scope.

(** [llvm::outs() << text] and [llvm::errs() << text]. *)
Definition outs_print (text : string) : action unit :=
  fun s => (tt, {| outs := outs s ++ text; errs := errs s;
                   linker := linker s |}).

Definition errs_print (text : string) : action unit :=
  fun s => (tt, {| outs := outs s; errs := errs s ++ text;
                   linker := linker s |}).

(** [std::string::empty]. *)
Definition empty (s : string) : bool :=
  match s with
  | EmptyString => true
  | String _ _ => false
  end.

(** [std::string(p.c_str())]: the characters before the first NUL. *)
Fixpoint c_str (s : string) : string :=
  match s with
  | EmptyString => EmptyString
  | String c s' =>
      if Ascii.eqb c (ascii_of_nat 0) then EmptyString
      else String c (c_str s')
  end.

Definition EXIT_SUCCESS : Z := 0.
Definition EXIT_FAILURE : Z := 1.

Definition DEFAULT_OUTPUT_PATH : string := "a.out".

(** The position of the element an iterator points to, or 0 at the end
    of the list: lines 282 to 292. *)
Definition position_at (it : list (string * nat)) : nat :=
  match it with
  | [] => O
  | (_, position) :: _ => position
  end.

Section Driver.

Context {ext : Externals} {cl : CommandLine}.

Definition is_success (result : ErrorCode) : bool :=
  if ErrorCode_eq_dec kSuccess result then true else false.

(** A call of a method of the linker: the result comes from outside, the
    call is recorded. *)
Definition Linker_call (c : linker_call) : action ErrorCode :=
  fun s => (Linker_result (linker s) c,
            {| outs := outs s; errs := errs s;
               linker := linker s ++ [c] |}).

(** [Linker linker;] *)
Definition Linker_new : action unit :=
  fun s => (tt, {| outs := outs s; errs := errs s; linker := [] |}).

Definition MCLDVersionPrinter : action unit :=
  outs_print ("mcld (The MCLinker Project, http://mclinker.googlecode.com/):"
              ++ newline
              ++ "  version: " ++ MCLD_VERSION ++ newline
              ++ "  Default target: " ++ DEFAULT_TARGET_TRIPLE_STRING
              ++ newline) ;;
  outs_print newline ;;
  outs_print ("LLVM (http://llvm.org/):" ++ newline).

Definition DetermineOutputFilename (pOutputPath : string) : action string :=
  if negb (empty pOutputPath) then pure pOutputPath
  else if (1 <? List.length OptInputObjectFiles)%nat then
    errs_print ("Use " ++ DEFAULT_OUTPUT_PATH ++ " for output file!"
                ++ newline) ;;
    pure DEFAULT_OUTPUT_PATH
  else
    let input_path := fst (nth 0 OptInputObjectFiles (EmptyString, O)) in
    match make_absolute input_path with
    | AbsoluteError message =>
        errs_print ("Failed to determine the absolute path of `"
                    ++ input_path ++ "'! (detail: " ++ message ++ ")"
                    ++ newline) ;;
        pure EmptyString
    | AbsoluteOk output_path =>
        let output_path := remove_filename output_path in
        let output_path := path_append output_path "a.out" in
        pure (c_str output_path)
    end.

Definition ConfigLinker (pOutputFilename : string) : action bool :=
  if negb new_nothrow_succeeds then
    errs_print ("Out of memory when create the linker configuration!"
                ++ newline) ;;
    pure false
  else
    let config :=
      {| constructed := if TARGET_BUILD then DefaultLinkerConfig
                        else LinkerConfigOfTriple OptTargetTriple;
         settings := [] |} in
    let config :=
      if negb (empty OptSOName) then setSOName OptSOName config
      else setSOName pOutputFilename config in
    let config :=
      if negb (empty OptSysRoot) then setSysRoot OptSysRoot config
      else config in
    let config :=
      if negb (empty OptDyld) then setDyld OptDyld config else config in
    let config :=
      fold_left (fun config wrap => addWrap wrap config)
                OptWrapList config in
    let config :=
      fold_left (fun config portable => addPortable portable config)
                OptPortableList config in
    let config :=
      fold_left (fun config sdir => addSearchDir sdir config)
                OptSearchDirList config in
    let config := addSearchDir "=/lib" config in
    let config := addSearchDir "=/usr/lib" config in
    let config := setShared OptShared config in
    let config := setBsymbolic OptBsymbolic config in
    result <- Linker_call (CallConfig config) ;;
    if negb (is_success result) then
      errs_print ("Failed to configure the linker! (detail: "
                  ++ GetErrorString result ++ ")" ++ newline) ;;
      pure false
    else pure true.

(** The loop of lines 281 to 313.  [files] and [libs] are what the two
    iterators have still to visit, each value with its position; every
    round but the last advances one of them. *)
Fixpoint input_loop (files : list (string * nat))
  : list (string * nat) -> action bool :=
  fix input_loop_libs (libs : list (string * nat)) : action bool :=
    let lib_pos := position_at libs in
    let file_pos := position_at files in
    if negb (file_pos =? 0)%nat
       && ((lib_pos =? 0)%nat || (file_pos <? lib_pos)%nat)
    then
      match files with
      | [] => pure true
      | (file, _) :: files' =>
          result <- Linker_call (CallAddObject file) ;;
          if negb (is_success result) then
            errs_print ("Failed to open the input file! (detail: " ++ file
                        ++ ": " ++ GetErrorString result ++ ")"
                        ++ newline) ;;
            pure false
          else input_loop files' libs
      end
    else if negb (lib_pos =? 0)%nat
            && ((file_pos =? 0)%nat || (lib_pos <? file_pos)%nat)
    then
      match libs with
      | [] => pure true
      | (lib, _) :: libs' =>
          result <- Linker_call (CallAddNameSpec lib) ;;
          if negb (is_success result) then
            errs_print ("Failed to open the namespec! (detail: " ++ lib
                        ++ ": " ++ GetErrorString result ++ ")"
                        ++ newline) ;;
            pure false
          else input_loop_libs libs'
      end
    else pure true.

Definition PrepareInputOutput (pOutputPath : string) : action bool :=
  result <- Linker_call (CallSetOutput pOutputPath) ;;
  if negb (is_success result) then
    errs_print ("Failed to open the output file! (detail: "
                ++ pOutputPath ++ ": " ++ GetErrorString result ++ ")"
                ++ newline) ;;
    pure false
  else input_loop OptInputObjectFiles OptNameSpecList.

Definition LinkFiles : action bool :=
  result <- Linker_call CallLink ;;
  if negb (is_success result) then
    errs_print ("Failed to linking! (detail: " ++ GetErrorString result
                ++ newline) ;;
    pure false
  else pure true.

(** [main], from the parsed command line on: lines 333 to 351.  The
    registration of [MCLDVersionPrinter], [ParseCommandLineOptions] and
    [init::Initialize] (lines 329 to 331) belong to LLVM and to the
    library; what they do, a version or help request and a command line in
    error included, happens before the state this function starts from. *)
Definition main : action Z :=
  OutputFilename <- DetermineOutputFilename OptOutputFilename ;;
  if empty OutputFilename then pure EXIT_FAILURE
  else
    Linker_new ;;
    ok <- ConfigLinker OutputFilename ;;
    if negb ok then pure EXIT_FAILURE
    else
      ok <- PrepareInputOutput OutputFilename ;;
      if negb ok then pure EXIT_FAILURE
      else
        ok <- LinkFiles ;;
        if negb ok then pure EXIT_FAILURE
        else pure EXIT_SUCCESS.

(** The configuration [ConfigLinker] hands to the linker, as a value. *)
Definition configuration (pOutputFilename : string) : LinkerConfig :=
  {| constructed := if TARGET_BUILD then DefaultLinkerConfig
                    else LinkerConfigOfTriple OptTargetTriple;
     settings :=
       [SOName (if empty OptSOName then pOutputFilename else OptSOName)]
       ++ (if empty OptSysRoot then [] else [SysRoot OptSysRoot])
       ++ (if empty OptDyld then [] else [Dyld OptDyld])
       ++ map Wrap OptWrapList
       ++ map Portable OptPortableList
       ++ map SearchDir (OptSearchDirList ++ ["=/lib"; "=/usr/lib"]%string)
       ++ [Shared OptShared; Bsymbolic OptBsymbolic] |}.

(** A history of calls every one of which returned [kSuccess]. *)
Inductive accepted : list linker_call -> Prop :=
| accepted_nil : accepted []
| accepted_snoc (history : list linker_call) (c : linker_call) :
    accepted history -> Linker_result history c = kSuccess ->
    accepted (history ++ [c]).

(** Calls that the linker, after the calls of [history], accepts one
    after the other: each returns [kSuccess]. *)
Fixpoint accepted_after (history calls : list linker_call) : Prop :=
  match calls with
  | [] => True
  | c :: calls' =>
      Linker_result history c = kSuccess
      /\ accepted_after (history ++ [c]) calls'
  end.

(** Adding inputs one after the other, in the order of a list, up to the
    first one the linker refuses. *)
Fixpoint add_in_order (inputs : list linker_call) : action bool :=
  match inputs with
  | [] => pure true
  | c :: inputs' =>
      result <- Linker_call c ;;
      if negb (is_success result) then
        errs_print
          (match c with
           | CallAddNameSpec lib =>
               "Failed to open the namespec! (detail: " ++ lib
               ++ ": " ++ GetErrorString result ++ ")" ++ newline
           | CallAddObject file =>
               "Failed to open the input file! (detail: " ++ file
               ++ ": " ++ GetErrorString result ++ ")" ++ newline
           | _ => EmptyString
           end) ;;
        pure false
      else add_in_order inputs'
  end.

(** How a stage that talks to the linker ends, from a state [s] whose
    calls were all accepted.  It returns [true] with nothing more on
    [errs] and every call accepted; or it returns [false] with a message
    on [errs], right after the one call that was refused. *)
Definition stage_outcome (s : state) (r : bool * state) : Prop :=
  outs (snd r) = outs s
  /\ (exists added, linker (snd r) = linker s ++ added)
  /\ if fst r
     then errs (snd r) = errs s /\ accepted (linker (snd r))
     else (exists text : string,
              text <> EmptyString /\ errs (snd r) = (errs s ++ text)%string)
          /\ exists history c,
              linker (snd r) = history ++ [c]
              /\ accepted history
              /\ Linker_result history c <> kSuccess.

End Driver.

(** The inputs of the two lists with their positions, as calls. *)
Definition object_calls (files : list (string * nat))
  : list (nat * linker_call) :=
  map (fun x => (snd x, CallAddObject (fst x))) files.

Definition namespec_calls (libs : list (string * nat))
  : list (nat * linker_call) :=
  map (fun x => (snd x, CallAddNameSpec (fst x))) libs.

(** Positions as the command-line parser assigns them: counted from 1,
    growing along each list, and no position used twice. *)
Definition valid_positions (files libs : list (string * nat)) : Prop :=
  StronglySorted (fun x y => (snd x < snd y)%nat) files
  /\ StronglySorted (fun x y => (snd x < snd y)%nat) libs
  /\ Forall (fun x => snd x <> O) files
  /\ Forall (fun x => snd x <> O) libs
  /\ (forall f l, In f files -> In l libs -> snd f <> snd l).

(** In the order of the command line. *)
Definition by_position (inputs : list (nat * linker_call)) : Prop :=
  StronglySorted (fun x y => (fst x < fst y)%nat) inputs.

(** Only text was added to [errs]; some text was added to [errs]. *)
Definition errs_extended (s s' : state) : Prop :=
  exists text : string, errs s' = (errs s ++ text)%string.

Definition errs_grown (s s' : state) : Prop :=
  exists text : string,
    text <> EmptyString /\ errs s' = (errs s ++ text)%string.

(** An instance to run the driver on: error codes are numbers, 0 for
    success; the linker refuses the namespec [bad] and nothing else; paths
    are made absolute under [/work]. *)
Definition demo_remove_filename (p : string) : string := "/work"%string.

Definition demo_externals : Externals :=
  {| ErrorCode := nat;
     kSuccess := O;
     ErrorCode_eq_dec := Nat.eq_dec;
     GetErrorString :=
       fun e => if Nat.eqb e 0 then "ok"%string else "error"%string;
     Linker_result := fun _ c =>
       match c with
       | CallAddNameSpec "bad"%string => 1%nat
       | _ => O
       end;
     make_absolute := fun p => AbsoluteOk ("/work/" ++ p)%string;
     remove_filename := demo_remove_filename;
     path_append := fun p q => (p ++ "/" ++ q)%string;
     new_nothrow_succeeds := true;
     TARGET_BUILD := false;
     DEFAULT_TARGET_TRIPLE_STRING := "armv7-none-linux-gnueabi";
     MCLD_VERSION := "2.0" |}.

(** [mcld -L/vendor/lib a.o -lm b.o -o out.so -shared] *)
Definition demo_command_line : CommandLine :=
  {| OptTargetTriple := "armv7-none-linux-gnueabi";
     OptOutputFilename := "out.so";
     OptSysRoot := "";
     OptSearchDirList := ["/vendor/lib"%string];
     OptSOName := "";
     OptShared := true;
     OptBsymbolic := true;
     OptDyld := "";
     OptInputObjectFiles := [("a.o"%string, 2%nat); ("b.o"%string, 4%nat)];
     OptNameSpecList := [("m"%string, 3%nat)];
     OptWrapList := [];
     OptPortableList := [] |}.

(** [mcld a.o -lbad -o out.so] *)
Definition demo_refused_command_line : CommandLine :=
  {| OptTargetTriple := "armv7-none-linux-gnueabi";
     OptOutputFilename := "out.so";
     OptSysRoot := "";
     OptSearchDirList := [];
     OptSOName := "";
     OptShared := false;
     OptBsymbolic := true;
     OptDyld := "";
     OptInputObjectFiles := [("a.o"%string, 1%nat)];
     OptNameSpecList := [("bad"%string, 2%nat)];
     OptWrapList := [];
     OptPortableList := [] |}.

Definition initial : state :=
  {| outs := EmptyString; errs := EmptyString; linker := [] |}.

End Mcld.

(** * Properties *)

Example divsi3_5_3 : __divsi3 udivsi3_ref 5 3 = 1.
Proof. reflexivity. Qed.
Example divsi3_5_m3 : __divsi3 udivsi3_ref 5 (-3) = -1.
Proof. reflexivity. Qed.
Example divsi3_m5_3 : __divsi3 udivsi3_ref (-5) 3 = -1.
Proof. reflexivity. Qed.
Example divsi3_m5_m3 : __divsi3 udivsi3_ref (-5) (-3) = 1.
Proof. reflexivity. Qed.
Example divsi3_min_m1 : __divsi3 udivsi3_ref si_min (-1) = si_min.
Proof. reflexivity. Qed.

Example fmt_16llX_2_63 : fmt_16llX (2 ^ 63) = "8000000000000000"%string.
Proof. vm_compute. reflexivity. Qed.
Example fmt_16llX_m2 : fmt_16llX (-2) = "FFFFFFFFFFFFFFFE"%string.
Proof. vm_compute. reflexivity. Qed.
Example make_ti_min : make_ti 0x8000000000000000 0 = ti_min.
Proof. vm_compute. reflexivity. Qed.
Example modulo_wide_5_m3 : modulo_wide 5 (-3) = 2.
Proof. vm_compute. reflexivity. Qed.
Example modulo_wide_m5_3 : modulo_wide (-5) 3 = -2.
Proof. vm_compute. reflexivity. Qed.
Example modulo_wide_min_3 : modulo_wide ti_min 3 = -2.
Proof. vm_compute. reflexivity. Qed.
Example modulo_wide_2_63_m3 : modulo_wide 0x8000000000000000 (-3) = 2.
Proof. vm_compute. reflexivity. Qed.
Example main_runs :
  main modulo_wide true {| stdout := ""; calls := [] |}
  = (0, {| stdout := ""; calls := map fst (main_cases) |}).
Proof. vm_compute. reflexivity. Qed.

(** ** Conversions and masks of the native word *)

Lemma su_modulus_eq : su_modulus = 4294967296.
Proof. reflexivity. Qed.

Lemma si_half_eq : si_half = 2147483648.
Proof. reflexivity. Qed.

Lemma bits_in_word_m1_eq : bits_in_word_m1 = 31.
Proof. reflexivity. Qed.

(** Unfold the conversions down to [mod] by a numeral, where [lia] can
    take over. *)
Ltac si_unfold :=
  unfold si_neg, si_add, si_mul, si_sub, su_sub, si_xor, su_xor,
    si_range, su_range, si_min, si_max, to_si, to_su in *;
  rewrite ?su_modulus_eq, ?si_half_eq in *.

Ltac si_lia := si_unfold; Z.to_euclidean_division_equations; lia.

Lemma to_si_id (x : Z) : si_range x -> to_si x = x.
Proof. intros H. si_lia. Qed.

Lemma to_su_id (x : Z) : su_range x -> to_su x = x.
Proof. intros H. si_lia. Qed.

Lemma to_si_range (x : Z) : si_range (to_si x).
Proof. si_lia. Qed.

Lemma to_su_range (x : Z) : su_range (to_su x).
Proof. si_lia. Qed.

Lemma to_si_to_su (x : Z) : to_si (to_su x) = to_si x.
Proof. si_lia. Qed.

Lemma to_su_to_si (x : Z) : to_su (to_si x) = to_su x.
Proof. si_lia. Qed.

(** The arithmetic shift by 31 is the sign mask: the comments of lines 27
    and 28. *)
Lemma si_shr_sign_mask (x : Z) :
  si_range x -> si_shr x bits_in_word_m1 = if x <? 0 then -1 else 0.
Proof.
  intros H. unfold si_shr. rewrite bits_in_word_m1_eq.
  rewrite Z.shiftr_div_pow2 by lia.
  change (2 ^ 31) with 2147483648.
  destruct (Z.ltb_spec x 0); si_lia.
Qed.

(** Reduction modulo a power of two goes through the exclusive or. *)
Lemma lxor_mod_pow2 (x y n : Z) :
  0 <= n -> Z.lxor (x mod 2 ^ n) (y mod 2 ^ n) = Z.lxor x y mod 2 ^ n.
Proof.
  intros Hn. rewrite <- !Z.land_ones by exact Hn.
  apply Z.bits_inj'. intros i Hi.
  rewrite !Z.lxor_spec, !Z.land_spec, Z.lxor_spec.
  destruct (Z.testbit x i), (Z.testbit y i), (Z.testbit (Z.ones n) i);
    reflexivity.
Qed.

(** Exclusive or with the all-ones [su_int] complements the 32 bits. *)
Lemma su_xor_ones (q : Z) :
  su_range q -> su_xor q (to_su (-1)) = su_modulus - 1 - q.
Proof.
  intros H. unfold su_xor.
  assert (Hq : q = to_su q) by (symmetry; apply to_su_id; exact H).
  rewrite Hq at 1. unfold to_su, su_modulus.
  rewrite lxor_mod_pow2 by (vm_compute; discriminate).
  rewrite Z.lxor_m1_r, Z.lnot_eq_pred_opp.
  fold su_modulus. si_lia.
Qed.

(** Lines 27 and 29 (and 28 and 30): the operand handed to the unsigned
    divider is the magnitude of the argument. *)
Lemma negate_if_negative_opp (x : Z) :
  si_range x ->
  negate_if_negative x = if x <? 0 then to_si (- x) else x.
Proof.
  intros H. unfold negate_if_negative.
  rewrite (si_shr_sign_mask x H).
  destruct (Z.ltb_spec x 0) as [Hneg | Hpos]; unfold si_sub, si_xor.
  - rewrite Z.lxor_m1_r, Z.lnot_eq_pred_opp. f_equal. lia.
  - rewrite Z.lxor_0_r, Z.sub_0_r. apply to_si_id. exact H.
Qed.

Lemma to_su_negate_if_negative (x : Z) :
  si_range x -> to_su (negate_if_negative x) = Z.abs x.
Proof.
  intros H. rewrite (negate_if_negative_opp x H).
  destruct (Z.ltb_spec x 0).
  - rewrite to_su_to_si. si_lia.
  - si_lia.
Qed.

(** Line 32: xor and subtract with the mask [s], at type [su_int] and
    converted back, negate the quotient exactly when the mask is set. *)
Lemma su_negate_by_mask (q s : Z) :
  su_range q -> s = 0 \/ s = -1 ->
  to_si (su_sub (su_xor q (to_su s)) (to_su s))
  = if s =? 0 then to_si q else to_si (- q).
Proof.
  intros Hq [-> | ->]; cbn [Z.eqb].
  - change (to_su 0) with 0. unfold su_xor, su_sub.
    rewrite Z.lxor_0_r, Z.sub_0_r. rewrite to_si_to_su. reflexivity.
  - rewrite (su_xor_ones q Hq). unfold su_sub. rewrite to_si_to_su.
    change (to_su (-1)) with 4294967295. rewrite su_modulus_eq.
    si_lia.
Qed.

(** [to_si] only looks at the class modulo 2^32. *)
Lemma to_si_shift (x k : Z) : to_si (x + k * su_modulus) = to_si x.
Proof.
  unfold to_si.
  replace (x + k * su_modulus + si_half)
    with (x + si_half + k * su_modulus) by ring.
  rewrite Z_mod_plus_full. reflexivity.
Qed.

Lemma to_si_decomp (x : Z) :
  to_si x = x + - ((x + si_half) / su_modulus) * su_modulus.
Proof. si_lia. Qed.

Lemma to_si_mul_l (x y : Z) : to_si (to_si x * y) = to_si (x * y).
Proof.
  rewrite (to_si_decomp x).
  replace ((x + - ((x + si_half) / su_modulus) * su_modulus) * y)
    with (x * y + (- ((x + si_half) / su_modulus) * y) * su_modulus) by ring.
  apply to_si_shift.
Qed.

Lemma to_si_sub_r (x y : Z) : to_si (x - to_si y) = to_si (x - y).
Proof.
  rewrite (to_si_decomp y).
  replace (x - (y + - ((y + si_half) / su_modulus) * su_modulus))
    with (x - y + ((y + si_half) / su_modulus) * su_modulus) by ring.
  apply to_si_shift.
Qed.

Lemma to_si_add_l (x y : Z) : to_si (to_si x + y) = to_si (x + y).
Proof.
  rewrite (to_si_decomp x).
  replace (x + - ((x + si_half) / su_modulus) * su_modulus + y)
    with (x + y + (- ((x + si_half) / su_modulus)) * su_modulus) by ring.
  apply to_si_shift.
Qed.

Lemma to_si_opp (x : Z) : to_si (- to_si x) = to_si (- x).
Proof.
  replace (- to_si x) with (0 - to_si x) by ring.
  rewrite to_si_sub_r. f_equal.
Qed.

(** Bounds on the truncating quotient and remainder of two [si_int]. *)
Lemma quot_si_range (a b : Z) :
  si_range a -> si_range b -> b <> 0 -> ~ (a = si_min /\ b = -1) ->
  si_range (a ÷ b).
Proof. intros Ha Hb Hnz Hmin. si_unfold. Z.to_euclidean_division_equations. nia. Qed.

Lemma rem_si_range (a b : Z) :
  si_range a -> si_range b -> b <> 0 -> si_range (Z.rem a b).
Proof.
  intros Ha Hb Hnz. pose proof (Z.rem_bound_abs a b Hnz). si_lia.
Qed.

Section Divsi3Facts.

Variable __udivsi3 : Z -> Z -> Z.

(** The contract of the unsigned divider: on a [su_int] dividend and a
    nonzero [su_int] divisor, the truncated quotient. *)
Hypothesis udivsi3_spec :
  forall n d : Z, su_range n -> su_range d -> d <> 0 ->
                  __udivsi3 n d = n / d.

Lemma divsi3_unfold (a b : Z) :
  __divsi3 __udivsi3 a b
  = let s := si_xor (si_shr a bits_in_word_m1) (si_shr b bits_in_word_m1) in
    to_si (su_sub (su_xor (__udivsi3 (to_su (negate_if_negative a))
                                     (to_su (negate_if_negative b)))
                          (to_su s))
                  (to_su s)).
Proof. reflexivity. Qed.

(** [__divsi3] is the quotient rounded toward zero, reduced to
    [si_int]. *)
Lemma divsi3_quot (a b : Z) :
  si_range a -> si_range b -> b <> 0 ->
  __divsi3 __udivsi3 a b = to_si (a ÷ b).
Proof using udivsi3_spec.
  intros Ha Hb Hnz. rewrite divsi3_unfold. cbv zeta.
  rewrite (to_su_negate_if_negative a Ha), (to_su_negate_if_negative b Hb).
  assert (Hua : su_range (Z.abs a)) by si_lia.
  assert (Hub : su_range (Z.abs b)) by si_lia.
  rewrite udivsi3_spec by (trivial; lia).
  assert (Hq : su_range (Z.abs a / Z.abs b)).
  { pose proof (Z.div_pos (Z.abs a) (Z.abs b)).
    pose proof (Z.div_le_upper_bound (Z.abs a) (Z.abs b) (Z.abs a)).
    unfold su_range in *. split; [lia | ]. 
    assert (Z.abs a / Z.abs b <= Z.abs a) by (apply H0; nia). lia. }
  rewrite (si_shr_sign_mask a Ha), (si_shr_sign_mask b Hb).
  rewrite (Z.quot_div a b Hnz).
  destruct (Z.ltb_spec a 0) as [Ha0 | Ha0];
    destruct (Z.ltb_spec b 0) as [Hb0 | Hb0];
    match goal with
    | |- context [si_xor ?x ?y] =>
        let v := eval cbv in (si_xor x y) in change (si_xor x y) with v
    end;
    rewrite su_negate_by_mask by (trivial; lia); cbn [Z.eqb];
    f_equal.
  - rewrite (Z.sgn_neg a), (Z.sgn_neg b) by lia. lia.
  - rewrite (Z.sgn_neg a) by lia.
    assert (Z.sgn b = 1) by (apply Z.sgn_pos; lia). lia.
  - rewrite (Z.sgn_neg b) by lia.
    destruct (Z.eq_dec a 0) as [-> | ]; [reflexivity | ].
    assert (Z.sgn a = 1) by (apply Z.sgn_pos; lia). lia.
  - destruct (Z.eq_dec a 0) as [-> | ]; [reflexivity | ].
    assert (Z.sgn a = 1) by (apply Z.sgn_pos; lia).
    assert (Z.sgn b = 1) by (apply Z.sgn_pos; lia). lia.
Qed.

(** The remainder that goes with it, [a - __divsi3(a, b) * b] in [si_int]
    arithmetic, is the one of truncating division, also at [(MIN, -1)]
    where the quotient wraps. *)
Lemma divsi3_remainder_rem (a b : Z) :
  si_range a -> si_range b -> b <> 0 ->
  si_sub a (si_mul (__divsi3 __udivsi3 a b) b) = Z.rem a b.
Proof using udivsi3_spec.
  intros Ha Hb Hnz.
  rewrite (divsi3_quot a b Ha Hb Hnz).
  unfold si_sub, si_mul. rewrite to_si_mul_l, to_si_sub_r.
  replace (a - a ÷ b * b) with (Z.rem a b)
    by (pose proof (Z.quot_rem' a b); lia).
  apply to_si_id, rem_si_range; assumption.
Qed.

Lemma modulo_native_rem (a b : Z) :
  si_range a -> si_range b -> b <> 0 ->
  modulo_native __udivsi3 a b = Z.rem a b.
Proof using udivsi3_spec. exact (divsi3_remainder_rem a b). Qed.

(** C1: for 32-bit signed [a] and nonzero [b], with [__udivsi3] the
    truncated unsigned quotient, [__divsi3 a b] is the quotient of [a]
    by [b] rounded toward zero, reduced modulo 2^32: it is that quotient
    itself except at [(MIN, -1)], where it wraps to [MIN]. *)
Theorem divsi3_truncating_quotient (a b : Z) :
  si_range a -> si_range b -> b <> 0 ->
  __divsi3 __udivsi3 a b = to_si (a ÷ b)
  /\ (~ (a = si_min /\ b = -1) -> __divsi3 __udivsi3 a b = a ÷ b)
  /\ (a = si_min -> b = -1 -> __divsi3 __udivsi3 a b = si_min).
Proof using udivsi3_spec.
  intros Ha Hb Hnz. rewrite (divsi3_quot a b Ha Hb Hnz).
  split; [reflexivity | split].
  - intros Hmin. apply to_si_id, quot_si_range; assumption.
  - intros -> ->. reflexivity.
Qed.

(** C4, amended: for 32-bit signed [a] and nonzero [b], away from
    [(MIN, -1)] the quotient [__divsi3 a b] is negative if and only if
    exactly one of [a] and [b] is negative and the quotient is not zero
    ([|b| <= |a|]); at [(MIN, -1)] it is [MIN].  The remainder
    [a - __divsi3 a b * b], in [si_int] arithmetic and in exact
    arithmetic, has the sign of [a] or is zero. *)
Theorem divsi3_sign_rule (a b : Z) :
  si_range a -> si_range b -> b <> 0 ->
  (~ (a = si_min /\ b = -1) ->
   (__divsi3 __udivsi3 a b < 0
    <-> exactly_one_negative a b /\ Z.abs b <= Z.abs a))
  /\ (a = si_min -> b = -1 -> __divsi3 __udivsi3 a b = si_min)
  /\ sign_of_or_zero (si_sub a (si_mul (__divsi3 __udivsi3 a b) b)) a
  /\ sign_of_or_zero (a - __divsi3 __udivsi3 a b * b) a.
Proof using udivsi3_spec.
  intros Ha Hb Hnz.
  pose proof (divsi3_remainder_rem a b Ha Hb Hnz) as Hrem.
  pose proof (divsi3_quot a b Ha Hb Hnz) as Hquot.
  repeat apply conj.
  - intros Hmin. rewrite Hquot, to_si_id by (apply quot_si_range; assumption).
    unfold exactly_one_negative.
    clear Hrem Hquot. si_unfold. Z.to_euclidean_division_equations. nia.
  - intros -> ->. rewrite Hquot. reflexivity.
  - rewrite Hrem. clear Hrem Hquot. si_unfold.
    Z.to_euclidean_division_equations. nia.
  - rewrite Hrem. clear Hrem Hquot. si_unfold.
    Z.to_euclidean_division_equations. nia.
  - rewrite Hquot. clear Hrem Hquot.
    destruct (Z.eq_dec a si_min) as [-> | Ha'].
    + destruct (Z.eq_dec b (-1)) as [-> | Hb']; [ vm_compute; congruence | ].
      rewrite to_si_id by (apply quot_si_range; tauto).
      si_unfold. Z.to_euclidean_division_equations. nia.
    + rewrite to_si_id by (apply quot_si_range; tauto).
      si_unfold. Z.to_euclidean_division_equations. nia.
  - rewrite Hquot. clear Hrem Hquot.
    destruct (Z.eq_dec a si_min) as [-> | Ha'].
    + destruct (Z.eq_dec b (-1)) as [-> | Hb']; [ vm_compute; congruence | ].
      rewrite to_si_id by (apply quot_si_range; tauto).
      si_unfold. Z.to_euclidean_division_equations. nia.
    + rewrite to_si_id by (apply quot_si_range; tauto).
      si_unfold. Z.to_euclidean_division_equations. nia.
Qed.

(** C5: for 32-bit signed [a] and nonzero [b], with [modulo_native a b]
    defined as [a - __divsi3 a b * b] modulo 2^32, the division identity
    [__divsi3 a b * b + modulo_native a b == a] holds, [modulo_native a b]
    has the sign of [a] or is zero, and [|modulo_native a b| < |b|]. *)
Theorem modulo_native_division_identity (a b : Z) :
  si_range a -> si_range b -> b <> 0 ->
  si_add (si_mul (__divsi3 __udivsi3 a b) b) (modulo_native __udivsi3 a b) = a
  /\ sign_of_or_zero (modulo_native __udivsi3 a b) a
  /\ Z.abs (modulo_native __udivsi3 a b) < Z.abs b.
Proof using udivsi3_spec.
  intros Ha Hb Hnz.
  rewrite (modulo_native_rem a b Ha Hb Hnz).
  rewrite (divsi3_quot a b Ha Hb Hnz).
  repeat apply conj.
  - unfold si_add, si_mul. rewrite to_si_mul_l, to_si_add_l.
    replace (a ÷ b * b + Z.rem a b) with a
      by (pose proof (Z.quot_rem' a b); lia).
    apply to_si_id. exact Ha.
  - Z.to_euclidean_division_equations. nia.
  - Z.to_euclidean_division_equations. nia.
  - apply Z.rem_bound_abs. exact Hnz.
Qed.

(** Negation in [si_int] arithmetic of an argument of the divider. *)
Lemma divsi3_neg_l (a b : Z) :
  si_range a -> si_range b -> b <> 0 -> a <> si_min ->
  si_neg (__divsi3 __udivsi3 (si_neg a) b) = __divsi3 __udivsi3 a b.
Proof using udivsi3_spec.
  intros Ha Hb Hnz Hmin.
  assert (Hna : si_neg a = - a) by si_lia.
  rewrite Hna, !divsi3_quot by (trivial; si_lia).
  unfold si_neg. rewrite to_si_opp, Z.quot_opp_l, Z.opp_involutive by exact Hnz.
  reflexivity.
Qed.

Lemma divsi3_neg_r (a b : Z) :
  si_range a -> si_range b -> b <> 0 -> a <> si_min ->
  si_neg (__divsi3 __udivsi3 a (si_neg b)) = __divsi3 __udivsi3 a b.
Proof using udivsi3_spec.
  intros Ha Hb Hnz Hmin.
  destruct (Z.eq_dec b si_min) as [-> | Hb'].
  - change (si_neg si_min) with si_min.
    rewrite divsi3_quot by assumption.
    assert (Hq : a ÷ si_min = 0)
      by (apply Z.quot_small_iff; [exact Hnz | si_lia]).
    rewrite Hq. reflexivity.
  - assert (Hnb : si_neg b = - b) by si_lia.
    rewrite Hnb, !divsi3_quot by (trivial; si_lia).
    unfold si_neg. rewrite to_si_opp, Z.quot_opp_r, Z.opp_involutive by exact Hnz.
    reflexivity.
Qed.

(** C7: for 32-bit signed [a], [b] with [b] nonzero and [a] not the most
    negative value, [__divsi3 a b == -__divsi3 (-a) b == -__divsi3 a (-b)
    == __divsi3 (-a) (-b)], negation being that of [si_int]. *)
Theorem divsi3_negation_symmetry (a b : Z) :
  si_range a -> si_range b -> b <> 0 -> a <> si_min ->
  __divsi3 __udivsi3 a b = si_neg (__divsi3 __udivsi3 (si_neg a) b)
  /\ si_neg (__divsi3 __udivsi3 (si_neg a) b)
     = si_neg (__divsi3 __udivsi3 a (si_neg b))
  /\ si_neg (__divsi3 __udivsi3 a (si_neg b))
     = __divsi3 __udivsi3 (si_neg a) (si_neg b).
Proof using udivsi3_spec.
  intros Ha Hb Hnz Hmin.
  assert (Hna : si_range (si_neg a)) by apply to_si_range.
  assert (Hna' : si_neg a <> si_min) by si_lia.
  assert (Hnn : si_neg (si_neg a) = a) by si_lia.
  rewrite (divsi3_neg_l a b), (divsi3_neg_r a b) by assumption.
  repeat split.
  rewrite <- (divsi3_neg_l (si_neg a) (si_neg b))
    by (trivial; si_lia).
  rewrite Hnn. symmetry. apply divsi3_neg_r; assumption.
Qed.

End Divsi3Facts.

(** C6: for 32-bit signed [x], the idiom [(x ^ s) - s] with [s = x >> 31],
    modulo 2^32, is [|x|] when [x] is not the most negative value, and is
    [MIN] itself when [x == MIN]. *)
Theorem negate_idiom_abs_or_min (x : Z) :
  si_range x ->
  (x <> si_min -> negate_if_negative x = Z.abs x)
  /\ (x = si_min -> negate_if_negative x = si_min).
Proof.
  intros Hx. rewrite (negate_if_negative_opp x Hx). split.
  - intros Hmin. destruct (Z.ltb_spec x 0); si_lia.
  - intros ->. reflexivity.
Qed.

(** C10: for 32-bit signed [a >= 0] and [b > 0], [__divsi3 a b ==
    __udivsi3 a b]: both masks are zero, the operands reach the unsigned
    divider unchanged and so does its result leave.  The C comparison is
    made at type [su_int]; the two are the same integer when the result
    fits [si_int], as the unsigned quotient does. *)
Theorem divsi3_nonneg_is_udivsi3 (__udivsi3 : Z -> Z -> Z) (a b : Z) :
  si_range a -> si_range b -> 0 <= a -> 0 < b ->
  su_range (__udivsi3 a b) ->
  to_su (__divsi3 __udivsi3 a b) = __udivsi3 a b
  /\ (__udivsi3 a b <= si_max -> __divsi3 __udivsi3 a b = __udivsi3 a b)
  /\ (__udivsi3 a b = a / b -> __divsi3 __udivsi3 a b = __udivsi3 a b).
Proof.
  intros Ha Hb Ha0 Hb0 Hu.
  assert (Hdiv : __divsi3 __udivsi3 a b = to_si (__udivsi3 a b)).
  { rewrite divsi3_unfold. cbv zeta.
    rewrite (to_su_negate_if_negative a Ha), (to_su_negate_if_negative b Hb).
    rewrite (si_shr_sign_mask a Ha), (si_shr_sign_mask b Hb).
    rewrite !Z.abs_eq by lia.
    destruct (Z.ltb_spec a 0); [lia | ].
    destruct (Z.ltb_spec b 0); [lia | ].
    change (si_xor 0 0) with 0.
    rewrite su_negate_by_mask by (trivial; lia). reflexivity. }
  rewrite Hdiv. repeat apply conj.
  - rewrite to_su_to_si. apply to_su_id. exact Hu.
  - intros Hfit. apply to_si_id. si_lia.
  - intros Hquot. apply to_si_id. rewrite Hquot.
    assert (Hle : a / b <= a) by (apply Z.div_le_upper_bound; nia).
    pose proof (Z.div_pos a b Ha0 Hb0). si_lia.
Qed.

(** The reference divider meets the contract assumed of [__udivsi3]. *)
Lemma udivsi3_ref_spec (n d : Z) :
  su_range n -> su_range d -> d <> 0 -> udivsi3_ref n d = n / d.
Proof. reflexivity. Defined.

Lemma divsi3_truncating_quotient_witness :
  si_range si_min /\ si_range (-1) /\ -1 <> 0
  /\ (__divsi3 udivsi3_ref si_min (-1) = to_si (si_min ÷ -1)
      /\ (~ (si_min = si_min /\ -1 = -1) ->
          __divsi3 udivsi3_ref si_min (-1) = si_min ÷ -1)
      /\ (si_min = si_min -> -1 = -1 ->
          __divsi3 udivsi3_ref si_min (-1) = si_min)).
Proof.
  assert (Ha : si_range si_min) by (vm_compute; split; discriminate).
  assert (Hb : si_range (-1)) by (vm_compute; split; discriminate).
  assert (Hnz : -1 <> 0) by discriminate.
  exact (conj Ha (conj Hb (conj Hnz
           (divsi3_truncating_quotient udivsi3_ref udivsi3_ref_spec
              si_min (-1) Ha Hb Hnz)))).
Defined.

Ltac si_range_dec := vm_compute; split; discriminate.

Lemma divsi3_sign_rule_witness :
  si_range (-7) /\ si_range 2 /\ 2 <> 0
  /\ ((~ (-7 = si_min /\ 2 = -1) ->
       (__divsi3 udivsi3_ref (-7) 2 < 0
        <-> exactly_one_negative (-7) 2 /\ Z.abs 2 <= Z.abs (-7)))
      /\ (-7 = si_min -> 2 = -1 -> __divsi3 udivsi3_ref (-7) 2 = si_min)
      /\ sign_of_or_zero
           (si_sub (-7) (si_mul (__divsi3 udivsi3_ref (-7) 2) 2)) (-7)
      /\ sign_of_or_zero (-7 - __divsi3 udivsi3_ref (-7) 2 * 2) (-7)).
Proof.
  assert (Ha : si_range (-7)) by si_range_dec.
  assert (Hb : si_range 2) by si_range_dec.
  assert (Hnz : 2 <> 0) by discriminate.
  exact (conj Ha (conj Hb (conj Hnz
           (divsi3_sign_rule udivsi3_ref udivsi3_ref_spec (-7) 2 Ha Hb Hnz)))).
Defined.

(** C4 as stated fails where the quotient truncates to zero: [1 / -2] is
    [0], not negative, although exactly one operand is negative. *)
Lemma divsi3_sign_rule_counterexample :
  si_range 1 /\ si_range (-2) /\ -2 <> 0
  /\ ~ (__divsi3 udivsi3_ref 1 (-2) < 0 <-> exactly_one_negative 1 (-2)).
Proof.
  repeat split; try discriminate.
  intros [_ H].
  assert (Hone : exactly_one_negative 1 (-2)) by (right; lia).
  specialize (H Hone). vm_compute in H. discriminate.
Qed.

Lemma modulo_native_division_identity_witness :
  si_range (-7) /\ si_range 2 /\ 2 <> 0
  /\ (si_add (si_mul (__divsi3 udivsi3_ref (-7) 2) 2)
             (modulo_native udivsi3_ref (-7) 2) = -7
      /\ sign_of_or_zero (modulo_native udivsi3_ref (-7) 2) (-7)
      /\ Z.abs (modulo_native udivsi3_ref (-7) 2) < Z.abs 2).
Proof.
  assert (Ha : si_range (-7)) by si_range_dec.
  assert (Hb : si_range 2) by si_range_dec.
  assert (Hnz : 2 <> 0) by discriminate.
  exact (conj Ha (conj Hb (conj Hnz
           (modulo_native_division_identity udivsi3_ref udivsi3_ref_spec
              (-7) 2 Ha Hb Hnz)))).
Defined.

Lemma divsi3_negation_symmetry_witness :
  si_range 7 /\ si_range si_min /\ si_min <> 0 /\ 7 <> si_min
  /\ (__divsi3 udivsi3_ref 7 si_min
      = si_neg (__divsi3 udivsi3_ref (si_neg 7) si_min)
      /\ si_neg (__divsi3 udivsi3_ref (si_neg 7) si_min)
         = si_neg (__divsi3 udivsi3_ref 7 (si_neg si_min))
      /\ si_neg (__divsi3 udivsi3_ref 7 (si_neg si_min))
         = __divsi3 udivsi3_ref (si_neg 7) (si_neg si_min)).
Proof.
  assert (Ha : si_range 7) by si_range_dec.
  assert (Hb : si_range si_min) by si_range_dec.
  assert (Hnz : si_min <> 0) by discriminate.
  assert (Hmin : 7 <> si_min) by discriminate.
  exact (conj Ha (conj Hb (conj Hnz (conj Hmin
           (divsi3_negation_symmetry udivsi3_ref udivsi3_ref_spec
              7 si_min Ha Hb Hnz Hmin))))).
Defined.

Lemma negate_idiom_abs_or_min_witness :
  si_range si_min
  /\ ((si_min <> si_min -> negate_if_negative si_min = Z.abs si_min)
      /\ (si_min = si_min -> negate_if_negative si_min = si_min)).
Proof.
  assert (Hx : si_range si_min) by si_range_dec.
  exact (conj Hx (negate_idiom_abs_or_min si_min Hx)).
Defined.

Lemma divsi3_nonneg_is_udivsi3_witness :
  si_range 7 /\ si_range 2 /\ 0 <= 7 /\ 0 < 2 /\ su_range (udivsi3_ref 7 2)
  /\ (to_su (__divsi3 udivsi3_ref 7 2) = udivsi3_ref 7 2
      /\ (udivsi3_ref 7 2 <= si_max ->
          __divsi3 udivsi3_ref 7 2 = udivsi3_ref 7 2)
      /\ (udivsi3_ref 7 2 = 7 / 2 ->
          __divsi3 udivsi3_ref 7 2 = udivsi3_ref 7 2)).
Proof.
  assert (Ha : si_range 7) by si_range_dec.
  assert (Hb : si_range 2) by si_range_dec.
  assert (Ha0 : 0 <= 7) by discriminate.
  assert (Hb0 : 0 < 2) by reflexivity.
  assert (Hu : su_range (udivsi3_ref 7 2)) by (vm_compute; split; [discriminate | reflexivity]).
  exact (conj Ha (conj Hb (conj Ha0 (conj Hb0 (conj Hu
           (divsi3_nonneg_is_udivsi3 udivsi3_ref 7 2 Ha Hb Ha0 Hb0 Hu)))))).
Defined.

(** ** The test program *)

Lemma string_app_nil_r (s : string) : (s ++ "")%string = s.
Proof. induction s as [| c s IH]; cbn; [ | rewrite IH]; reflexivity. Qed.

Lemma string_app_assoc (s t u : string) :
  ((s ++ t) ++ u)%string = (s ++ (t ++ u))%string.
Proof. induction s as [| c s IH]; cbn; [ | rewrite IH]; reflexivity. Qed.

Lemma newlines_app (s t : string) :
  newlines (s ++ t) = (newlines s + newlines t)%nat.
Proof. induction s as [| c s IH]; cbn; [ | rewrite IH]; lia. Qed.

(** No hexadecimal digit is a line end. *)
Lemma hex_digit_not_newline (d : Z) :
  0 <= d < 16 -> Ascii.eqb (hex_digit d) (ascii_of_nat 10) = false.
Proof.
  intros Hd.
  assert (Hcases : d = 0 \/ d = 1 \/ d = 2 \/ d = 3 \/ d = 4 \/ d = 5
                   \/ d = 6 \/ d = 7 \/ d = 8 \/ d = 9 \/ d = 10 \/ d = 11
                   \/ d = 12 \/ d = 13 \/ d = 14 \/ d = 15) by lia.
  repeat (destruct Hcases as [-> | Hcases]; [reflexivity | ]).
  subst d. reflexivity.
Qed.

Lemma newlines_hex_digits (n : nat) (x : Z) (acc : string) :
  newlines (hex_digits n x acc) = newlines acc.
Proof.
  revert x acc. induction n as [| n IH]; intros x acc; cbn [hex_digits].
  - reflexivity.
  - rewrite IH. cbn [newlines].
    rewrite hex_digit_not_newline by (apply Z.mod_pos_bound; lia).
    reflexivity.
Qed.

Lemma newlines_fmt_16llX (x : Z) : newlines (fmt_16llX x) = O.
Proof. unfold fmt_16llX. rewrite newlines_hex_digits. reflexivity. Qed.

Lemma length_hex_digits (n : nat) (x : Z) (acc : string) :
  String.length (hex_digits n x acc) = (n + String.length acc)%nat.
Proof.
  revert x acc. induction n as [| n IH]; intros x acc; cbn [hex_digits].
  - reflexivity.
  - rewrite IH. cbn [String.length]. lia.
Qed.

Lemma length_fmt_16llX (x : Z) : String.length (fmt_16llX x) = 16%nat.
Proof. unfold fmt_16llX. rewrite length_hex_digits. reflexivity. Qed.

Lemma hex_digit_value_hex_digit (d : Z) :
  0 <= d < 16 -> hex_digit_value (hex_digit d) = d.
Proof.
  intros Hd.
  assert (Hcases : d = 0 \/ d = 1 \/ d = 2 \/ d = 3 \/ d = 4 \/ d = 5
                   \/ d = 6 \/ d = 7 \/ d = 8 \/ d = 9 \/ d = 10 \/ d = 11
                   \/ d = 12 \/ d = 13 \/ d = 14 \/ d = 15) by lia.
  repeat (destruct Hcases as [-> | Hcases]; [reflexivity | ]).
  subst d. reflexivity.
Qed.

Lemma hex_value_hex_digits (n : nat) (x v : Z) (acc : string) :
  hex_value (hex_digits n x acc) v
  = hex_value acc (16 ^ Z.of_nat n * v + x mod 16 ^ Z.of_nat n).
Proof.
  revert x v acc. induction n as [| n IH]; intros x v acc.
  - cbn [hex_digits]. change (16 ^ Z.of_nat 0) with 1.
    rewrite Z.mod_1_r. f_equal. lia.
  - cbn [hex_digits]. rewrite IH. cbn [hex_value].
    rewrite hex_digit_value_hex_digit by (apply Z.mod_pos_bound; lia).
    f_equal.
    rewrite Nat2Z.inj_succ, Z.pow_succ_r by lia.
    assert (Hpow : 0 < 16 ^ Z.of_nat n) by (apply Z.pow_pos_nonneg; lia).
    rewrite (Z.rem_mul_r x 16 (16 ^ Z.of_nat n)) by lia.
    ring.
Qed.

(** The sixteen digits printed for a half are its 64 bits. *)
Lemma hex_value_fmt_16llX (x : Z) : hex_value (fmt_16llX x) 0 = to_du x.
Proof.
  unfold fmt_16llX. rewrite hex_value_hex_digits. cbn [hex_value].
  change (16 ^ Z.of_nat 16) with du_modulus.
  unfold to_du. rewrite Z.mul_0_r, Z.add_0_l. apply Z.mod_mod.
  vm_compute. discriminate.
Qed.

Lemma hex_digit_upper (d : Z) :
  0 <= d < 16 -> is_upper_hex_digit (hex_digit d) = true.
Proof.
  intros Hd.
  assert (Hcases : d = 0 \/ d = 1 \/ d = 2 \/ d = 3 \/ d = 4 \/ d = 5
                   \/ d = 6 \/ d = 7 \/ d = 8 \/ d = 9 \/ d = 10 \/ d = 11
                   \/ d = 12 \/ d = 13 \/ d = 14 \/ d = 15) by lia.
  repeat (destruct Hcases as [-> | Hcases]; [reflexivity | ]).
  subst d. reflexivity.
Qed.

Lemma all_upper_hex_hex_digits (n : nat) (x : Z) (acc : string) :
  all_upper_hex (hex_digits n x acc) = all_upper_hex acc.
Proof.
  revert x acc. induction n as [| n IH]; intros x acc; cbn [hex_digits].
  - reflexivity.
  - rewrite IH. cbn [all_upper_hex].
    rewrite hex_digit_upper by (apply Z.mod_pos_bound; lia).
    reflexivity.
Qed.

(** What [%.16llX] prints is a field for the value it is given. *)
Lemma hex_field_fmt_16llX (v : Z) : hex_field (fmt_16llX v) v.
Proof.
  unfold hex_field. split; [ | split ].
  - apply length_fmt_16llX.
  - unfold fmt_16llX. rewrite all_upper_hex_hex_digits. reflexivity.
  - apply hex_value_fmt_16llX.
Qed.

Lemma to_du_to_di (y : Z) : to_du (to_di y) = to_du y.
Proof.
  unfold to_du, to_di, du_modulus, di_half, di_bits.
  change (2 ^ 64) with 18446744073709551616.
  change (2 ^ (64 - 1)) with 9223372036854775808.
  Z.to_euclidean_division_equations. lia.
Qed.

(** The fields printed for [t.s.high] and [t.s.low] are the two halves of
    [t.all]. *)
Lemma hex_halves_twords (v : Z) :
  hex_halves (fmt_16llX (high (twords_of_all v)))
             (fmt_16llX (low (twords_of_all v))) v.
Proof.
  cbn [high low twords_of_all]. unfold hex_halves, di_bits. split.
  - destruct (hex_field_fmt_16llX (to_di (Z.shiftr v 64)))
      as (Hlen & Hhex & Hval).
    unfold hex_field. split; [ exact Hlen | split; [ exact Hhex | ] ].
    rewrite Hval. apply to_du_to_di.
  - destruct (hex_field_fmt_16llX (to_du v)) as (Hlen & Hhex & Hval).
    unfold hex_field. split; [ exact Hlen | split; [ exact Hhex | ] ].
    rewrite Hval. unfold to_du. apply Z.mod_mod. vm_compute. discriminate.
Qed.

(** The diagnostic carries the operands, the result and the expected
    value, each as its high and low hexadecimal halves. *)
Lemma diagnostic_renders (a b x expected : Z) :
  renders (diagnostic a b x expected) a b x expected.
Proof.
  unfold renders, diagnostic. cbv zeta.
  exists (fmt_16llX (high (twords_of_all a))),
         (fmt_16llX (low (twords_of_all a))),
         (fmt_16llX (high (twords_of_all b))),
         (fmt_16llX (low (twords_of_all b))),
         (fmt_16llX (high (twords_of_all x))),
         (fmt_16llX (low (twords_of_all x))),
         (fmt_16llX (high (twords_of_all expected))),
         (fmt_16llX (low (twords_of_all expected))).
  split; [ reflexivity | ].
  split; [ | split; [ | split ] ]; apply hex_halves_twords.
Qed.

(** The diagnostic is one line. *)
Lemma diagnostic_one_line (a b x expected : Z) :
  one_line (diagnostic a b x expected).
Proof.
  unfold one_line, diagnostic. cbv zeta.
  eexists. split.
  - rewrite <- !string_app_assoc. reflexivity.
  - rewrite !newlines_app, !newlines_fmt_16llX. reflexivity.
Qed.

Section Modti3TestFacts.

Variable __modti3 : Z -> Z -> Z.

(** A passing case returns 0 and prints nothing. *)
Lemma test__modti3_pass (a b expected : Z) (w : world) :
  __modti3 a b = expected ->
  test__modti3 __modti3 a b expected w
  = (0, {| stdout := stdout w; calls := calls w ++ [(a, b)] |}).
Proof.
  intros H. unfold test__modti3, bind, call__modti3, ret.
  rewrite H, Z.eqb_refl. reflexivity.
Qed.

(** A failing case returns 1 and prints its diagnostic. *)
Lemma test__modti3_fail (a b expected : Z) (w : world) :
  __modti3 a b <> expected ->
  test__modti3 __modti3 a b expected w
  = (1, {| stdout := stdout w ++ diagnostic a b (__modti3 a b) expected;
           calls := calls w ++ [(a, b)] |}).
Proof.
  intros H. unfold test__modti3, bind, call__modti3, ret, printf.
  apply Z.eqb_neq in H. rewrite H. reflexivity.
Qed.

Lemma run_cases_all_pass (cs : list (Z * Z * Z)) (w : world) :
  Forall (passes __modti3) cs ->
  run_cases __modti3 cs w
  = (0, {| stdout := stdout w; calls := calls w ++ map case_args cs |}).
Proof.
  intros H. revert w. induction H as [| [[a b] e] cs Hc Hcs IH]; intros w.
  - cbn. rewrite app_nil_r. destruct w; reflexivity.
  - cbn [run_cases]. unfold bind at 1.
    rewrite (test__modti3_pass a b e w Hc). cbn [Z.eqb].
    rewrite IH. cbn [stdout calls map case_args fst].
    rewrite <- app_assoc. reflexivity.
Qed.

Lemma run_cases_first_failure (pre post : list (Z * Z * Z))
      (c : Z * Z * Z) (w : world) :
  Forall (passes __modti3) pre -> ~ passes __modti3 c ->
  run_cases __modti3 (pre ++ c :: post) w
  = (1, {| stdout := stdout w ++ case_diagnostic __modti3 c;
           calls := calls w ++ map case_args (pre ++ [c]) |}).
Proof.
  intros H Hc. revert w. induction H as [| [[a b] e] cs Hp Hcs IH]; intros w.
  - destruct c as [[a b] e]. cbn [app run_cases]. unfold bind at 1.
    rewrite (test__modti3_fail a b e w Hc). reflexivity.
  - cbn [app run_cases]. unfold bind at 1.
    rewrite (test__modti3_pass a b e w Hp). cbn [Z.eqb].
    rewrite IH. cbn [stdout calls map case_args fst app].
    rewrite <- app_assoc. reflexivity.
Qed.

(** [main] on x86_64 is the loop over its table. *)
Lemma main_run_cases : main __modti3 true = run_cases __modti3 main_cases.
Proof. reflexivity. Qed.

(** C8: [main] returns 0 if every case of the table passes, and returns 1
    at the first mismatch, no later case being run; [test__modti3] prints
    the one diagnostic line for a failing case and nothing for a passing
    one.  The line is the text of the format string around eight fields
    of sixteen upper-case hexadecimal digits, which read back as the high
    and low halves of the two operands, of the actual result and of the
    expected value. *)
Theorem main_exit_code (w : world) :
  (Forall (passes __modti3) main_cases ->
   main __modti3 true w
   = (0, {| stdout := stdout w;
            calls := calls w ++ map case_args main_cases |}))
  /\ (forall pre c post,
         main_cases = pre ++ c :: post -> Forall (passes __modti3) pre -> ~ passes __modti3 c ->
         main __modti3 true w
         = (1, {| stdout := stdout w ++ case_diagnostic __modti3 c;
                  calls := calls w ++ map case_args (pre ++ [c]) |})
         /\ one_line (case_diagnostic __modti3 c)
         /\ renders (case_diagnostic __modti3 c)
                    (fst (fst c)) (snd (fst c))
                    (__modti3 (fst (fst c)) (snd (fst c))) (snd c))
  /\ (forall a b expected,
         __modti3 a b = expected ->
         test__modti3 __modti3 a b expected w
         = (0, {| stdout := stdout w; calls := calls w ++ [(a, b)] |}))
  /\ (forall a b expected,
         __modti3 a b <> expected ->
         test__modti3 __modti3 a b expected w
         = (1, {| stdout := stdout w
                            ++ diagnostic a b (__modti3 a b) expected;
                  calls := calls w ++ [(a, b)] |})
         /\ one_line (diagnostic a b (__modti3 a b) expected)
         /\ renders (diagnostic a b (__modti3 a b) expected)
                    a b (__modti3 a b) expected).
Proof.
  rewrite main_run_cases. repeat apply conj.
  - apply run_cases_all_pass.
  - intros pre c post -> Hpre Hc. repeat apply conj.
    + apply run_cases_first_failure; assumption.
    + destruct c as [[a b] e]. apply diagnostic_one_line.
    + destruct c as [[a b] e]. apply diagnostic_renders.
  - intros a b e. apply test__modti3_pass.
  - intros a b e H. repeat apply conj.
    + apply test__modti3_fail. exact H.
    + apply diagnostic_one_line.
    + apply diagnostic_renders.
Qed.

(** C9: when [__x86_64] is not satisfied, [main] runs no case (nothing is
    called, nothing printed) and returns 0. *)
Theorem main_without_x86_64 (w : world) :
  main __modti3 false w = (0, w)
  /\ fst (main __modti3 false w) = 0
  /\ calls (snd (main __modti3 false w)) = calls w
  /\ stdout (snd (main __modti3 false w)) = stdout w.
Proof.
  unfold main, ret. cbn [fst snd].
  repeat split.
Qed.

End Modti3TestFacts.

(** The double-width modulo of the specification passes every case. *)
Lemma modulo_wide_passes : Forall (passes modulo_wide) main_cases.
Proof. repeat constructor. Defined.

(** A divider that is wrong on purpose, to watch the test fail. *)
Lemma always_zero_fails_third_case :
  ~ passes (fun _ _ : Z => 0) (5, 3, 2).
Proof. cbn. discriminate. Defined.

Lemma main_exit_code_witness :
  main modulo_wide true w0
  = (0, {| stdout := ""; calls := map case_args main_cases |})
  /\ main (fun _ _ => 0) true w0
     = (1, {| stdout :=
                "error in __modti3: 0x00000000000000000000000000000005"
                ++ " % 0x00000000000000000000000000000003"
                ++ " = 0x00000000000000000000000000000000"
                ++ ", expected 0x00000000000000000000000000000002"
                ++ newline;
              calls := [(0, 1); (0, -1); (5, 3)] |})
  /\ renders (diagnostic 5 3 0 2) 5 3 0 2.
Proof.
  assert (Hpre : Forall (passes (fun _ _ : Z => 0)) [(0, 1, 0); (0, -1, 0)])
    by (repeat constructor).
  repeat apply conj.
  - exact (proj1 (main_exit_code modulo_wide w0) modulo_wide_passes).
  - exact (proj1 (proj1 (proj2 (main_exit_code (fun _ _ => 0) w0))
                    [(0, 1, 0); (0, -1, 0)] (5, 3, 2) _ eq_refl Hpre
                    always_zero_fails_third_case)).
  - exact (proj2 (proj2
             (proj1 (proj2 (main_exit_code (fun _ _ => 0) w0))
                [(0, 1, 0); (0, -1, 0)] (5, 3, 2) _ eq_refl Hpre
                always_zero_fails_third_case))).
Defined.

(** ** The double-width divider and modulo of the specification *)

Lemma tu_modulus_eq : tu_modulus = 340282366920938463463374607431768211456.
Proof. reflexivity. Qed.

Lemma ti_half_eq : ti_half = 170141183460469231731687303715884105728.
Proof. reflexivity. Qed.

Lemma du_modulus_eq : du_modulus = 18446744073709551616.
Proof. reflexivity. Qed.

Lemma di_half_eq : di_half = 9223372036854775808.
Proof. reflexivity. Qed.

Ltac ti_unfold :=
  unfold ti_sub, ti_xor, ti_range, tu_range, ti_min, ti_max,
    to_ti, to_tu, to_di, to_du in *;
  rewrite ?tu_modulus_eq, ?ti_half_eq, ?du_modulus_eq, ?di_half_eq in *.

Ltac ti_lia := ti_unfold; Z.to_euclidean_division_equations; lia.

(** Shifting a bit in: [(r << 1) | bit] is [2 * r + bit]. *)
Lemma shift_in_bit (r : Z) (c : bool) :
  Z.lor (Z.shiftl r 1) (Z.b2z c) = 2 * r + Z.b2z c.
Proof.
  rewrite Z.shiftl_mul_pow2 by lia. change (2 ^ 1) with 2.
  rewrite Z.mul_comm.
  apply Z.bits_inj'. intros i Hi.
  rewrite Z.lor_spec.
  destruct (Z.eq_dec i 0) as [-> | Hnz].
  - rewrite Z.testbit_0_r.
    replace (2 * r) with (2 * r + Z.b2z false) by (cbn; lia).
    rewrite Z.testbit_0_r. destruct c; reflexivity.
  - replace i with (Z.succ (i - 1)) by lia.
    rewrite Z.testbit_succ_r by lia.
    replace (2 * r) with (2 * r + Z.b2z false) by (cbn; lia).
    rewrite Z.testbit_succ_r by lia.
    replace (Z.b2z c) with (2 * 0 + Z.b2z c) by lia.
    rewrite Z.testbit_succ_r by lia.
    rewrite Z.bits_0, orb_false_r. reflexivity.
Qed.

(** The numerator with one more bit taken. *)
Lemma numerator_prefix_step (n : Z) (i : nat) :
  n / 2 ^ Z.of_nat i
  = 2 * (n / 2 ^ Z.of_nat (S i)) + Z.b2z (Z.testbit n (Z.of_nat i)).
Proof.
  rewrite Z.testbit_spec' by lia.
  replace (2 ^ Z.of_nat (S i)) with (2 ^ Z.of_nat i * 2)
    by (rewrite Nat2Z.inj_succ, Z.pow_succ_r; lia).
  assert (Hpow : 0 < 2 ^ Z.of_nat i) by (apply Z.pow_pos_nonneg; lia).
  rewrite <- Z.div_div by lia.
  apply Z.div_mod. lia.
Qed.

(** One round of the long division keeps [q] and [r] the quotient and
    remainder of the bits of the numerator taken so far. *)
Lemma long_division_correct (i : nat) (n d q r : Z) :
  tu_range n -> 0 < d ->
  q = n / 2 ^ Z.of_nat i / d -> r = (n / 2 ^ Z.of_nat i) mod d ->
  long_division i n d q r = (n / d, n mod d).
Proof.
  intros Hn Hd. revert q r.
  induction i as [| i IH]; intros q r Hq Hr.
  - cbn [long_division]. change (2 ^ Z.of_nat 0) with 1 in *.
    rewrite Z.div_1_r in *. subst. reflexivity.
  - cbn [long_division]. rewrite shift_in_bit.
    pose proof (numerator_prefix_step n i) as Hstep.
    set (N := n / 2 ^ Z.of_nat (S i)) in *.
    set (M := n / 2 ^ Z.of_nat i) in *.
    set (c := Z.b2z (Z.testbit n (Z.of_nat i))) in *.
    assert (Hc : 0 <= c <= 1) by (subst c; destruct (Z.testbit n (Z.of_nat i)); cbn; lia).
    assert (HN : 0 <= N) by (apply Z.div_pos; [apply Hn | apply Z.pow_pos_nonneg; lia]).
    assert (HM : 0 <= M <= n).
    { split; [ lia | ].
      subst M. apply Z.div_le_upper_bound; [apply Z.pow_pos_nonneg; lia | ].
      assert (0 < 2 ^ Z.of_nat i) by (apply Z.pow_pos_nonneg; lia).
      destruct Hn. nia. }
    pose proof (Z.div_mod N d ltac:(lia)) as HNd.
    pose proof (Z.mod_pos_bound N d Hd) as Hrd.
    rewrite <- Hq, <- Hr in *.
    assert (Hq0 : 0 <= q) by (subst q; apply Z.div_pos; lia).
    assert (Hr1 : to_tu (2 * r + c) = 2 * r + c).
    { unfold to_tu. apply Z.mod_small. destruct Hn. nia. }
    rewrite Hr1.
    destruct (Z.leb_spec d (2 * r + c)) as [Hge | Hlt].
    + apply IH.
      * replace (Z.lor (Z.shiftl q 1) 1) with (2 * q + 1)
          by (symmetry; apply (shift_in_bit q true)).
        assert (Hqq : 2 * q + 1 = M / d)
          by (apply (Z.div_unique_pos M d (2 * q + 1) (2 * r + c - d)); nia).
        rewrite Hqq. unfold to_tu. apply Z.mod_small.
        split; [apply Z.div_pos; lia | ].
        assert (M / d <= M) by (apply Z.div_le_upper_bound; nia).
        destruct Hn. lia.
      * unfold to_tu. rewrite Z.mod_small by (destruct Hn; nia).
        apply (Z.mod_unique_pos M d (2 * q + 1) (2 * r + c - d)); nia.
    + apply IH.
      * rewrite Z.shiftl_mul_pow2 by lia. change (2 ^ 1) with 2.
        assert (Hqq : q * 2 = M / d)
          by (apply (Z.div_unique_pos M d (q * 2) (2 * r + c)); nia).
        rewrite Hqq. unfold to_tu. apply Z.mod_small.
        split; [apply Z.div_pos; lia | ].
        assert (M / d <= M) by (apply Z.div_le_upper_bound; nia).
        destruct Hn. lia.
      * apply (Z.mod_unique_pos M d (2 * q) (2 * r + c)); nia.
Qed.

(** The unsigned wide divider returns quotient and remainder, on the
    fast path and on the slow one. *)
Lemma divide_wide_unsigned_correct (n d : Z) :
  tu_range n -> tu_range d -> d <> 0 ->
  divide_wide_unsigned n d = (n / d, n mod d).
Proof.
  intros Hn Hd Hnz. unfold divide_wide_unsigned. cbv zeta.
  destruct ((high (twords_of_all n) =? 0) && (high (twords_of_all d) =? 0))
    eqn:Hfast.
  - apply andb_prop in Hfast as [Hhn Hhd].
    apply Z.eqb_eq in Hhn, Hhd. cbn [high low twords_of_all] in *.
    unfold di_bits in *. rewrite Z.shiftr_div_pow2 in Hhn, Hhd by lia.
    change (2 ^ 64) with 18446744073709551616 in *.
    assert (Hn' : to_du n = n) by ti_lia.
    assert (Hd' : to_du d = d) by ti_lia.
    rewrite Hn', Hd'. f_equal.
    rewrite Z.mod_eq by exact Hnz. ring.
  - assert (Hpos : 0 < d) by (destruct Hd; lia).
    apply long_division_correct; try assumption;
      change (2 ^ Z.of_nat (Z.to_nat ti_bits)) with tu_modulus;
      rewrite (Z.div_small n tu_modulus Hn); reflexivity.
Qed.

Lemma ti_shr_sign_mask (x : Z) :
  ti_range x -> ti_shr x (ti_bits - 1) = if x <? 0 then -1 else 0.
Proof.
  intros H. unfold ti_shr. change (ti_bits - 1) with 127.
  rewrite Z.shiftr_div_pow2 by lia.
  change (2 ^ 127) with 170141183460469231731687303715884105728.
  destruct (Z.ltb_spec x 0); ti_lia.
Qed.

(** Negation by the mask, at double width. *)
Lemma ti_negate_by_mask (x : Z) (neg : bool) :
  ti_sub (ti_xor x (if neg then -1 else 0)) (if neg then -1 else 0)
  = if neg then to_ti (- x) else to_ti x.
Proof.
  destruct neg; unfold ti_sub, ti_xor.
  - rewrite Z.lxor_m1_r, Z.lnot_eq_pred_opp. f_equal. lia.
  - rewrite Z.lxor_0_r, Z.sub_0_r. reflexivity.
Qed.

(** The double-width modulo of the specification is the remainder of
    truncating division, for every dividend and nonzero divisor. *)
Lemma modulo_wide_rem (a b : Z) :
  ti_range a -> ti_range b -> b <> 0 -> modulo_wide a b = Z.rem a b.
Proof.
  intros Ha Hb Hnz. unfold modulo_wide. cbv zeta.
  rewrite (ti_shr_sign_mask a Ha), (ti_shr_sign_mask b Hb).
  rewrite !ti_negate_by_mask.
  assert (Hua : to_tu (if a <? 0 then to_ti (- a) else to_ti a) = Z.abs a)
    by (destruct (Z.ltb_spec a 0); ti_lia).
  assert (Hub : to_tu (if b <? 0 then to_ti (- b) else to_ti b) = Z.abs b)
    by (destruct (Z.ltb_spec b 0); ti_lia).
  rewrite Hua, Hub.
  rewrite divide_wide_unsigned_correct by ti_lia. cbn [snd].
  pose proof (Z.mod_pos_bound (Z.abs a) (Z.abs b) ltac:(lia)) as Hr.
  rewrite (Z.rem_mod a b Hnz).
  set (r := Z.abs a mod Z.abs b) in *.
  assert (Hr' : to_ti r = r) by ti_lia.
  rewrite Hr'.
  destruct (Z.ltb_spec a 0) as [Ha0 | Ha0].
  - rewrite (Z.sgn_neg a Ha0). ti_lia.
  - assert (Hsgn : Z.sgn a * r = r).
    { destruct (Z.eq_dec a 0) as [Hz | Hz].
      - subst r. rewrite Hz. cbn [Z.abs Z.sgn]. rewrite Z.mod_0_l by lia.
        reflexivity.
      - rewrite (Z.sgn_pos a) by lia. lia. }
    rewrite Hsgn. exact Hr'.
Qed.

(** Halves and whole: decomposing a double-width value and recomposing
    gives the value back. *)
Lemma twords_round_trip (x : Z) :
  ti_range x -> twords_all (twords_of_all x) = x.
Proof.
  intros Hx. unfold twords_all, twords_of_all. cbn [high low].
  unfold di_bits. rewrite Z.shiftr_div_pow2 by lia.
  change (2 ^ 64) with 18446744073709551616.
  ti_lia.
Qed.

(** ** The most negative double-width value *)

(** C2 as stated fails: the 128-bit value of high word 0x8000000000000000
    and low word 0 is negative, and so is its remainder. *)
Lemma modulo_wide_min_by_3_counterexample :
  ~ (modulo_wide (make_ti 0x8000000000000000 0) 3 = 2
     /\ modulo_wide (make_ti 0x8000000000000000 0) (-3) = 2).
Proof. intros [H _]. vm_compute in H. discriminate. Qed.

(** C2, amended: the 128-bit value with high word 0x8000000000000000 and
    low word 0, taken modulo 3, yields remainder -2, and taken modulo -3
    yields remainder -2; these are the values the last two cases of the
    test expect. *)
Theorem modulo_wide_min_by_3 :
  modulo_wide (make_ti 0x8000000000000000 0) 3 = -2
  /\ modulo_wide (make_ti 0x8000000000000000 0) (-3) = -2
  /\ In (make_ti 0x8000000000000000 0, 3, -2) main_cases
  /\ In (make_ti 0x8000000000000000 0, -3, -2) main_cases.
Proof.
  repeat apply conj; try (vm_compute; reflexivity);
    unfold main_cases; cbn [In]; tauto.
Qed.

(** C3 as stated fails at the most negative value of the operand type of
    [__modti3]: its remainder by 3 is -2. *)
Lemma modulo_most_negative_counterexample :
  (forall x : Z, ti_range x -> ti_min <= x)
  /\ ~ (modulo_wide ti_min 1 = 0 /\ modulo_wide ti_min 2 = 0
        /\ modulo_wide ti_min 3 = 2 /\ modulo_wide ti_min (-3) = 2).
Proof.
  split.
  - intros x [H _]. exact H.
  - intros (_ & _ & H & _). vm_compute in H. discriminate.
Qed.

(** C3, amended: for [MIN] the most negative value of the operand type,
    [modulo(MIN, 1) == 0], [modulo(MIN, 2) == 0], [modulo(MIN, 3) == -2]
    and [modulo(MIN, -3) == -2]; negating [MIN] wraps to [MIN] and the
    modulo is computed all the same.  The expected value 2 of the test
    belongs to the positive dividend 2^63. *)
Theorem modulo_most_negative :
  make_ti 0x8000000000000000 0 = ti_min
  /\ ti_sub 0 ti_min = ti_min
  /\ modulo_wide ti_min 1 = 0
  /\ modulo_wide ti_min 2 = 0
  /\ modulo_wide ti_min 3 = -2
  /\ modulo_wide ti_min (-3) = -2
  /\ modulo_wide 0x8000000000000000 3 = 2
  /\ modulo_wide 0x8000000000000000 (-3) = 2.
Proof. repeat apply conj; vm_compute; reflexivity. Qed.

(** * Further properties of [__divsi3] *)

(** X1: the unsigned divider is only ever called on magnitudes: two dividers
    that agree on [0, 2^31] x [0, 2^31] give the same [__divsi3], zero
    divisor included. *)
Theorem divsi3_depends_on_magnitudes (udiv1 udiv2 : Z -> Z -> Z) (a b : Z) :
  (forall n d : Z, 0 <= n <= si_half -> 0 <= d <= si_half ->
                   udiv1 n d = udiv2 n d) ->
  si_range a -> si_range b ->
  __divsi3 udiv1 a b = __divsi3 udiv2 a b.
Proof.
  intros Hagree Ha Hb. rewrite !divsi3_unfold. cbv zeta.
  rewrite (to_su_negate_if_negative a Ha), (to_su_negate_if_negative b Hb).
  rewrite Hagree by si_lia. reflexivity.
Qed.

(** X2: a zero divisor is not checked: it reaches the unsigned divider as it
    is, with the magnitude of the dividend, and the result takes the sign
    of the dividend. *)
Theorem divsi3_zero_divisor (udiv : Z -> Z -> Z) (a : Z) :
  si_range a -> su_range (udiv (Z.abs a) 0) ->
  __divsi3 udiv a 0
  = if a <? 0 then to_si (- udiv (Z.abs a) 0) else to_si (udiv (Z.abs a) 0).
Proof.
  intros Ha Hu. rewrite divsi3_unfold. cbv zeta.
  assert (H0 : si_range 0) by si_range_dec.
  rewrite (to_su_negate_if_negative a Ha), (to_su_negate_if_negative 0 H0).
  rewrite (si_shr_sign_mask a Ha), (si_shr_sign_mask 0 H0).
  change (Z.abs 0) with 0. change (0 <? 0) with false. cbv iota.
  destruct (Z.ltb_spec a 0);
    match goal with
    | |- context [si_xor ?x ?y] =>
        let v := eval cbv in (si_xor x y) in change (si_xor x y) with v
    end;
    rewrite su_negate_by_mask by (trivial; lia); reflexivity.
Qed.

Section Divsi3More.

Variable __udivsi3 : Z -> Z -> Z.

Hypothesis udivsi3_spec :
  forall n d : Z, su_range n -> su_range d -> d <> 0 ->
                  __udivsi3 n d = n / d.

(** X3: dividing by 1 gives the dividend back, dividing by -1 its negation in
    [si_int] arithmetic, and a nonzero value divided by itself gives 1. *)
Theorem divsi3_unit_divisors (a : Z) :
  si_range a ->
  __divsi3 __udivsi3 a 1 = a
  /\ __divsi3 __udivsi3 a (-1) = si_neg a
  /\ (a <> 0 -> __divsi3 __udivsi3 a a = 1).
Proof using udivsi3_spec.
  intros Ha.
  assert (H1 : si_range 1) by si_range_dec.
  assert (Hm1 : si_range (-1)) by si_range_dec.
  repeat apply conj.
  - rewrite (divsi3_quot __udivsi3 udivsi3_spec a 1 Ha H1) by discriminate.
    rewrite Z.quot_1_r. apply to_si_id. exact Ha.
  - rewrite (divsi3_quot __udivsi3 udivsi3_spec a (-1) Ha Hm1) by discriminate.
    unfold si_neg. f_equal.
    change (-1) with (- (1)). rewrite Z.quot_opp_r, Z.quot_1_r by discriminate.
    reflexivity.
  - intros Hnz.
    rewrite (divsi3_quot __udivsi3 udivsi3_spec a a Ha Ha Hnz).
    rewrite Z.quot_same by exact Hnz. reflexivity.
Qed.

(** X4: the quotient is zero exactly when the dividend is smaller than the
    divisor in magnitude. *)
Theorem divsi3_zero_iff (a b : Z) :
  si_range a -> si_range b -> b <> 0 ->
  (__divsi3 __udivsi3 a b = 0 <-> Z.abs a < Z.abs b).
Proof using udivsi3_spec.
  intros Ha Hb Hnz.
  rewrite (divsi3_quot __udivsi3 udivsi3_spec a b Ha Hb Hnz).
  rewrite <- (Z.quot_small_iff a b Hnz).
  destruct (Z.eq_dec a si_min) as [-> | Ha'].
  - destruct (Z.eq_dec b (-1)) as [-> | Hb'].
    + vm_compute. split; discriminate.
    + rewrite to_si_id by (apply quot_si_range; tauto). reflexivity.
  - rewrite to_si_id by (apply quot_si_range; tauto). reflexivity.
Qed.

(** X5: away from [(MIN, -1)] the quotient is no larger than the dividend in
    magnitude. *)
Theorem divsi3_magnitude_bound (a b : Z) :
  si_range a -> si_range b -> b <> 0 -> ~ (a = si_min /\ b = -1) ->
  Z.abs (__divsi3 __udivsi3 a b) <= Z.abs a.
Proof using udivsi3_spec.
  intros Ha Hb Hnz Hmin.
  rewrite (divsi3_quot __udivsi3 udivsi3_spec a b Ha Hb Hnz).
  rewrite to_si_id by (apply quot_si_range; assumption).
  clear Ha Hb Hmin. Z.to_euclidean_division_equations. nia.
Qed.

(** X6: for a positive divisor the quotient grows with the dividend. *)
Theorem divsi3_monotone (a a' b : Z) :
  si_range a -> si_range a' -> si_range b -> 0 < b -> a <= a' ->
  __divsi3 __udivsi3 a b <= __divsi3 __udivsi3 a' b.
Proof using udivsi3_spec.
  intros Ha Ha' Hb Hpos Hle.
  rewrite !(divsi3_quot __udivsi3 udivsi3_spec) by (trivial; lia).
  rewrite !to_si_id by (apply quot_si_range; trivial; lia).
  apply Z.quot_le_mono; assumption.
Qed.

(** X7: multiplying and dividing back: when [q * b] does not overflow,
    [__divsi3 (q * b) b] is [q]. *)
Theorem divsi3_mul_cancel (q b : Z) :
  si_range q -> si_range b -> b <> 0 -> si_range (q * b) ->
  __divsi3 __udivsi3 (si_mul q b) b = q.
Proof using udivsi3_spec.
  intros Hq Hb Hnz Hqb.
  unfold si_mul. rewrite (to_si_id (q * b) Hqb).
  rewrite (divsi3_quot __udivsi3 udivsi3_spec (q * b) b Hqb Hb Hnz).
  rewrite Z.quot_mul by exact Hnz. apply to_si_id. exact Hq.
Qed.

End Divsi3More.

Lemma divsi3_depends_on_magnitudes_witness :
  (forall n d : Z, 0 <= n <= si_half -> 0 <= d <= si_half ->
                   udivsi3_ref n d = udivsi3_on_magnitudes n d)
  /\ si_range (-7) /\ si_range 2
  /\ __divsi3 udivsi3_ref (-7) 2 = __divsi3 udivsi3_on_magnitudes (-7) 2.
Proof.
  assert (Hagree : forall n d : Z,
             0 <= n <= si_half -> 0 <= d <= si_half ->
             udivsi3_ref n d = udivsi3_on_magnitudes n d).
  { intros n d [_ Hn] [_ Hd]. unfold udivsi3_on_magnitudes.
    apply Z.leb_le in Hn, Hd. rewrite Hn, Hd. reflexivity. }
  assert (Ha : si_range (-7)) by si_range_dec.
  assert (Hb : si_range 2) by si_range_dec.
  exact (conj Hagree (conj Ha (conj Hb
           (divsi3_depends_on_magnitudes udivsi3_ref udivsi3_on_magnitudes
              (-7) 2 Hagree Ha Hb)))).
Defined.

Lemma divsi3_zero_divisor_witness :
  si_range (-5) /\ su_range (udivsi3_ref (Z.abs (-5)) 0)
  /\ __divsi3 udivsi3_ref (-5) 0
     = if -5 <? 0 then to_si (- udivsi3_ref (Z.abs (-5)) 0)
       else to_si (udivsi3_ref (Z.abs (-5)) 0).
Proof.
  assert (Ha : si_range (-5)) by si_range_dec.
  assert (Hu : su_range (udivsi3_ref (Z.abs (-5)) 0))
    by (vm_compute; split; [discriminate | reflexivity]).
  exact (conj Ha (conj Hu (divsi3_zero_divisor udivsi3_ref (-5) Ha Hu))).
Defined.

Lemma divsi3_unit_divisors_witness :
  si_range si_min
  /\ (__divsi3 udivsi3_ref si_min 1 = si_min
      /\ __divsi3 udivsi3_ref si_min (-1) = si_neg si_min
      /\ (si_min <> 0 -> __divsi3 udivsi3_ref si_min si_min = 1)).
Proof.
  assert (Ha : si_range si_min) by si_range_dec.
  exact (conj Ha (divsi3_unit_divisors udivsi3_ref udivsi3_ref_spec si_min Ha)).
Defined.

Lemma divsi3_zero_iff_witness :
  si_range 3 /\ si_range (-5) /\ -5 <> 0
  /\ (__divsi3 udivsi3_ref 3 (-5) = 0 <-> Z.abs 3 < Z.abs (-5)).
Proof.
  assert (Ha : si_range 3) by si_range_dec.
  assert (Hb : si_range (-5)) by si_range_dec.
  assert (Hnz : -5 <> 0) by discriminate.
  exact (conj Ha (conj Hb (conj Hnz
           (divsi3_zero_iff udivsi3_ref udivsi3_ref_spec 3 (-5) Ha Hb Hnz)))).
Defined.

Lemma divsi3_magnitude_bound_witness :
  si_range (-7) /\ si_range 2 /\ 2 <> 0 /\ ~ (-7 = si_min /\ 2 = -1)
  /\ Z.abs (__divsi3 udivsi3_ref (-7) 2) <= Z.abs (-7).
Proof.
  assert (Ha : si_range (-7)) by si_range_dec.
  assert (Hb : si_range 2) by si_range_dec.
  assert (Hnz : 2 <> 0) by discriminate.
  assert (Hmin : ~ (-7 = si_min /\ 2 = -1)) by (intros [_ H]; discriminate).
  exact (conj Ha (conj Hb (conj Hnz (conj Hmin
           (divsi3_magnitude_bound udivsi3_ref udivsi3_ref_spec
              (-7) 2 Ha Hb Hnz Hmin))))).
Defined.

Lemma divsi3_monotone_witness :
  si_range (-7) /\ si_range 5 /\ si_range 2 /\ 0 < 2 /\ -7 <= 5
  /\ __divsi3 udivsi3_ref (-7) 2 <= __divsi3 udivsi3_ref 5 2.
Proof.
  assert (Ha : si_range (-7)) by si_range_dec.
  assert (Ha' : si_range 5) by si_range_dec.
  assert (Hb : si_range 2) by si_range_dec.
  assert (Hpos : 0 < 2) by reflexivity.
  assert (Hle : -7 <= 5) by discriminate.
  exact (conj Ha (conj Ha' (conj Hb (conj Hpos (conj Hle
           (divsi3_monotone udivsi3_ref udivsi3_ref_spec
              (-7) 5 2 Ha Ha' Hb Hpos Hle)))))).
Defined.

Lemma divsi3_mul_cancel_witness :
  si_range (-3) /\ si_range 5 /\ 5 <> 0 /\ si_range (-3 * 5)
  /\ __divsi3 udivsi3_ref (si_mul (-3) 5) 5 = -3.
Proof.
  assert (Hq : si_range (-3)) by si_range_dec.
  assert (Hb : si_range 5) by si_range_dec.
  assert (Hnz : 5 <> 0) by discriminate.
  assert (Hqb : si_range (-3 * 5)) by si_range_dec.
  exact (conj Hq (conj Hb (conj Hnz (conj Hqb
           (divsi3_mul_cancel udivsi3_ref udivsi3_ref_spec
              (-3) 5 Hq Hb Hnz Hqb))))).
Defined.

(** * Further properties of the test of [__modti3] *)

(** Every case of the table has operands and expected value in [ti_int],
    a nonzero divisor, and for expected value the remainder of truncating
    division. *)
Lemma main_cases_truncating :
  Forall (fun c : Z * Z * Z =>
            let '(a, b, expected) := c in
            ti_range a /\ ti_range b /\ b <> 0 /\ Z.rem a b = expected)
         main_cases.
Proof.
  unfold main_cases.
  repeat (apply Forall_cons;
          [ vm_compute; repeat split; discriminate | ]).
  apply Forall_nil.
Qed.

(** X8: any [__modti3] that computes the remainder of truncating division on
    [ti_int] operands with a nonzero divisor passes the test: [main]
    returns 0 after running all its cases, and prints nothing. *)
Theorem main_accepts_truncating_remainder (f : Z -> Z -> Z) (w : world) :
  (forall a b : Z, ti_range a -> ti_range b -> b <> 0 -> f a b = Z.rem a b) ->
  main f true w
  = (0, {| stdout := stdout w;
           calls := calls w ++ map case_args main_cases |}).
Proof.
  intros Hf. rewrite main_run_cases. apply run_cases_all_pass.
  eapply Forall_impl; [ | exact main_cases_truncating ].
  intros [[a b] e] (Ha & Hb & Hnz & Hrem). cbn.
  rewrite Hf by assumption. exact Hrem.
Qed.

Lemma newlines_diagnostic (a b x expected : Z) :
  newlines (diagnostic a b x expected) = 1%nat.
Proof.
  destruct (diagnostic_one_line a b x expected) as (body & -> & Hbody).
  rewrite newlines_app, Hbody. reflexivity.
Qed.

(** Whatever [__modti3] does, the loop of [main] stops after at most one
    diagnostic line, returns the number of lines it printed, and has run
    a prefix of its cases. *)
Lemma run_cases_counts_lines (f : Z -> Z -> Z) (cs : list (Z * Z * Z))
      (w : world) :
  exists (out : string) (k : nat),
    run_cases f cs w
    = (Z.of_nat (newlines out),
       {| stdout := stdout w ++ out;
          calls := calls w ++ firstn k (map case_args cs) |})
    /\ (newlines out <= 1)%nat
    /\ (k <= List.length cs)%nat
    /\ (cs <> [] -> 1 <= k)%nat.
Proof.
  revert w. induction cs as [| [[a b] e] cs IH]; intros w.
  - exists ""%string, O. cbn.
    rewrite string_app_nil_r, app_nil_r. destruct w.
    repeat split; try lia. congruence.
  - destruct (Z.eq_dec (f a b) e) as [Hpass | Hfail].
    + cbn [run_cases]. unfold bind at 1.
      rewrite (test__modti3_pass f a b e w Hpass). cbn [Z.eqb].
      destruct (IH {| stdout := stdout w; calls := calls w ++ [(a, b)] |})
        as (out & k & Hrun & Hout & Hk & _).
      exists out, (S k). rewrite Hrun.
      cbn [stdout calls map firstn case_args fst List.length].
      rewrite <- app_assoc. repeat split; try lia.
    + cbn [run_cases]. unfold bind at 1.
      rewrite (test__modti3_fail f a b e w Hfail). cbn [Z.eqb].
      exists (diagnostic a b (f a b) e), 1%nat.
      rewrite newlines_diagnostic.
      cbn [map firstn case_args fst List.length].
      repeat split; try lia.
Qed.

(** X9: for every [__modti3], [main] returns 0 or 1, the number of diagnostic
    lines it wrote, after calling [__modti3] on a nonempty prefix of the
    18 cases. *)
Theorem main_exit_code_counts_lines (f : Z -> Z -> Z) (w : world) :
  exists (out : string) (k : nat),
    main f true w
    = (Z.of_nat (newlines out),
       {| stdout := stdout w ++ out;
          calls := calls w ++ firstn k (map case_args main_cases) |})
    /\ (newlines out <= 1)%nat
    /\ (1 <= k <= 18)%nat.
Proof.
  rewrite main_run_cases.
  destruct (run_cases_counts_lines f main_cases w)
    as (out & k & Hrun & Hout & Hk & Hk1).
  exists out, k. repeat split; trivial.
  apply Hk1. discriminate.
Qed.

(** Texts of equal length in front of two equal concatenations are
    equal. *)
Lemma string_app_inj_length (s s' t t' : string) :
  String.length s = String.length s' ->
  (s ++ t)%string = (s' ++ t')%string -> s = s' /\ t = t'.
Proof.
  revert s'. induction s as [| c s IH]; intros [| c' s'] Hlen Heq;
    cbn in Hlen; try discriminate.
  - split; [reflexivity | exact Heq].
  - cbn in Heq. injection Heq as Hc Hrest.
    destruct (IH s' ltac:(lia) Hrest) as [-> ->]. subst c'.
    split; reflexivity.
Qed.

Lemma fmt_16llX_inj (x y : Z) :
  fmt_16llX x = fmt_16llX y -> to_du x = to_du y.
Proof.
  intros H. rewrite <- (hex_value_fmt_16llX x), <- (hex_value_fmt_16llX y).
  rewrite H. reflexivity.
Qed.

(** The two halves determine the double-width value. *)
Lemma twords_halves_inj (x y : Z) :
  ti_range x -> ti_range y ->
  to_du (high (twords_of_all x)) = to_du (high (twords_of_all y)) ->
  to_du (low (twords_of_all x)) = to_du (low (twords_of_all y)) ->
  x = y.
Proof.
  intros Hx Hy. cbn [high low twords_of_all]. unfold di_bits.
  rewrite !Z.shiftr_div_pow2 by lia.
  change (2 ^ 64) with 18446744073709551616.
  intros Hhigh Hlow. ti_lia.
Qed.

(** X10: the diagnostic line tells the failing case: two lines are the same
    text only for the same operands, result and expected value. *)
Theorem diagnostic_inj (a b x e a' b' x' e' : Z) :
  ti_range a -> ti_range b -> ti_range x -> ti_range e ->
  ti_range a' -> ti_range b' -> ti_range x' -> ti_range e' ->
  diagnostic a b x e = diagnostic a' b' x' e' ->
  a = a' /\ b = b' /\ x = x' /\ e = e'.
Proof.
  intros Ha Hb Hx He Ha' Hb' Hx' He' H.
  unfold diagnostic in H. cbv zeta in H.
  repeat match type of H with
         | (_ ++ _)%string = (_ ++ _)%string =>
             apply string_app_inj_length in H;
             [ let Hpart := fresh "Hpart" in
               destruct H as [Hpart H]; try apply fmt_16llX_inj in Hpart
             | rewrite ?length_fmt_16llX; reflexivity ]
         end.
  repeat split; apply twords_halves_inj; assumption.
Qed.

Lemma main_accepts_truncating_remainder_witness :
  (forall a b : Z, ti_range a -> ti_range b -> b <> 0 ->
                   Z.rem a b = Z.rem a b)
  /\ main Z.rem true w0
     = (0, {| stdout := stdout w0;
              calls := calls w0 ++ map case_args main_cases |}).
Proof.
  assert (Hf : forall a b : Z, ti_range a -> ti_range b -> b <> 0 ->
                               Z.rem a b = Z.rem a b)
    by (intros; reflexivity).
  exact (conj Hf (main_accepts_truncating_remainder Z.rem w0 Hf)).
Defined.

Ltac ti_range_dec := vm_compute; split; discriminate.

Lemma diagnostic_inj_witness :
  ti_range ti_min /\ ti_range 3 /\ ti_range 2 /\ ti_range (-2)
  /\ diagnostic ti_min 3 2 (-2) = diagnostic ti_min 3 2 (-2)
  /\ (ti_min = ti_min /\ 3 = 3 /\ 2 = 2 /\ -2 = -2).
Proof.
  assert (Ha : ti_range ti_min) by ti_range_dec.
  assert (Hb : ti_range 3) by ti_range_dec.
  assert (Hx : ti_range 2) by ti_range_dec.
  assert (He : ti_range (-2)) by ti_range_dec.
  exact (conj Ha (conj Hb (conj Hx (conj He (conj eq_refl
           (diagnostic_inj ti_min 3 2 (-2) ti_min 3 2 (-2)
              Ha Hb Hx He Ha Hb Hx He eq_refl)))))).
Defined.

(** * The linker driver *)

Module McldFacts.

Import Mcld.

Local Open Scope mcld_scope.

Example demo_main :
  @Mcld.main demo_externals demo_command_line initial
  = (EXIT_SUCCESS,
     {| outs := ""; errs := "";
        linker := [CallConfig (@configuration demo_externals
                                 demo_command_line "out.so");
                   CallSetOutput "out.so"; CallAddObject "a.o";
                   CallAddNameSpec "m"; CallAddObject "b.o"; CallLink] |}).
Proof. vm_compute. reflexivity. Qed.

(** ** Text on [errs] *)

Lemma errs_extended_refl (s : state) : errs_extended s s.
Proof. exists EmptyString. symmetry. apply string_app_nil_r. Qed.

Lemma errs_extended_trans (s1 s2 s3 : state) :
  errs_extended s1 s2 -> errs_extended s2 s3 -> errs_extended s1 s3.
Proof.
  intros [t1 H1] [t2 H2]. exists (t1 ++ t2)%string.
  rewrite H2, H1. apply string_app_assoc.
Qed.

Lemma errs_grown_extended (s s' : state) :
  errs_grown s s' -> errs_extended s s'.
Proof. intros (t & _ & H). exists t. exact H. Qed.

Lemma string_app_nonempty_l (t u : string) :
  t <> EmptyString -> (t ++ u)%string <> EmptyString.
Proof. destruct t; [congruence | discriminate]. Qed.

Lemma string_app_nonempty_r (t u : string) :
  u <> EmptyString -> (t ++ u)%string <> EmptyString.
Proof. destruct t; [trivial | discriminate]. Qed.

Lemma errs_extended_grown (s1 s2 s3 : state) :
  errs_extended s1 s2 -> errs_grown s2 s3 -> errs_grown s1 s3.
Proof.
  intros [t1 H1] (t2 & Hne & H2). exists (t1 ++ t2)%string. split.
  - apply string_app_nonempty_r. exact Hne.
  - rewrite H2, H1. apply string_app_assoc.
Qed.

Lemma errs_grown_then_extended (s1 s2 s3 : state) :
  errs_grown s1 s2 -> errs_extended s2 s3 -> errs_grown s1 s3.
Proof.
  intros (t1 & Hne & H1) [t2 H2]. exists (t1 ++ t2)%string. split.
  - apply string_app_nonempty_l. exact Hne.
  - rewrite H2, H1. apply string_app_assoc.
Qed.

Section DriverFacts.

Context {ext : Externals} {cl : CommandLine}.

Lemma is_success_true (result : ErrorCode) :
  is_success result = true <-> result = kSuccess.
Proof.
  unfold is_success. destruct (ErrorCode_eq_dec kSuccess result);
    split; congruence.
Qed.

Lemma is_success_false (result : ErrorCode) :
  is_success result = false <-> result <> kSuccess.
Proof.
  unfold is_success. destruct (ErrorCode_eq_dec kSuccess result);
    split; congruence.
Qed.

(** ** The loop over the inputs *)

(** One round of the loop. *)
Lemma input_loop_eq (files libs : list (string * nat)) :
  input_loop files libs
  = (let lib_pos := position_at libs in
     let file_pos := position_at files in
     if negb (file_pos =? 0)%nat
        && ((lib_pos =? 0)%nat || (file_pos <? lib_pos)%nat)
     then
       match files with
       | [] => pure true
       | (file, _) :: files' =>
           result <- Linker_call (CallAddObject file) ;;
           if negb (is_success result) then
             errs_print ("Failed to open the input file! (detail: " ++ file
                         ++ ": " ++ GetErrorString result ++ ")"
                         ++ newline) ;;
             pure false
           else input_loop files' libs
       end
     else if negb (lib_pos =? 0)%nat
             && ((file_pos =? 0)%nat || (lib_pos <? file_pos)%nat)
     then
       match libs with
       | [] => pure true
       | (lib, _) :: libs' =>
           result <- Linker_call (CallAddNameSpec lib) ;;
           if negb (is_success result) then
             errs_print ("Failed to open the namespec! (detail: " ++ lib
                         ++ ": " ++ GetErrorString result ++ ")"
                         ++ newline) ;;
             pure false
           else input_loop files libs'
       end
     else pure true).
Proof. destruct files as [| [f pf] files]; destruct libs as [| [l pl] libs]; reflexivity. Qed.

Lemma Forall_object_calls (P : nat -> Prop) (files : list (string * nat)) :
  Forall (fun x => P (snd x)) files ->
  Forall (fun y => P (fst y)) (object_calls files).
Proof.
  intros H. unfold object_calls. apply Forall_map.
  eapply Forall_impl; [ | exact H ]. trivial.
Qed.

Lemma Forall_namespec_calls (P : nat -> Prop) (libs : list (string * nat)) :
  Forall (fun x => P (snd x)) libs ->
  Forall (fun y => P (fst y)) (namespec_calls libs).
Proof.
  intros H. unfold namespec_calls. apply Forall_map.
  eapply Forall_impl; [ | exact H ]. trivial.
Qed.

Lemma valid_positions_tail_files (f : string * nat)
      (files libs : list (string * nat)) :
  valid_positions (f :: files) libs -> valid_positions files libs.
Proof.
  intros (Hsf & Hsl & Hnf & Hnl & Hdis).
  apply StronglySorted_inv in Hsf as [Hsf _].
  apply Forall_inv_tail in Hnf.
  repeat split; trivial.
  intros x y Hx Hy. apply Hdis; [right; exact Hx | exact Hy].
Qed.

Lemma valid_positions_tail_libs (l : string * nat)
      (files libs : list (string * nat)) :
  valid_positions files (l :: libs) -> valid_positions files libs.
Proof.
  intros (Hsf & Hsl & Hnf & Hnl & Hdis).
  apply StronglySorted_inv in Hsl as [Hsl _].
  apply Forall_inv_tail in Hnl.
  repeat split; trivial.
  intros x y Hx Hy. apply Hdis; [exact Hx | right; exact Hy].
Qed.

(** Under valid positions every position still to visit is at or after
    the one at the front of its list. *)
Lemma positions_from_front (p : nat) (x : string * nat)
      (rest : list (string * nat)) :
  (p < snd x)%nat ->
  StronglySorted (fun x y => (snd x < snd y)%nat) (x :: rest) ->
  Forall (fun y => (p < snd y)%nat) (x :: rest).
Proof.
  intros Hp Hs. apply StronglySorted_inv in Hs as [_ Hall].
  constructor; [exact Hp | ].
  eapply Forall_impl; [ | exact Hall ]. cbn. intros; lia.
Qed.

(** The loop hands the inputs to the linker in the order of the command
    line, files and namespecs interleaved by position, and stops at the
    first one that is refused. *)
Lemma input_loop_in_order (files libs : list (string * nat)) :
  valid_positions files libs ->
  exists merged : list (nat * linker_call),
    Permutation merged (object_calls files ++ namespec_calls libs)
    /\ by_position merged
    /\ forall s : state,
        input_loop files libs s = add_in_order (map snd merged) s.
Proof.
  revert libs. induction files as [| [f pf] files IHfiles].
  - induction libs as [| [l pl] libs IHlibs]; intros Hvalid.
    + exists []. repeat split; [ constructor | constructor ].
    + destruct (IHlibs (valid_positions_tail_libs _ _ _ Hvalid))
        as (merged & Hperm & Hsorted & Hrun).
      destruct Hvalid as (_ & Hsl & _ & Hnl & _).
      exists ((pl, CallAddNameSpec l) :: merged). repeat split.
      * cbn. apply perm_skip. exact Hperm.
      * constructor; [exact Hsorted | ].
        apply StronglySorted_inv in Hsl as [_ Hall].
        apply (Permutation_Forall (Permutation_sym Hperm)). cbn.
        apply Forall_namespec_calls. exact Hall.
      * intros s. rewrite input_loop_eq. cbn [position_at].
        apply Forall_inv in Hnl. cbn in Hnl.
        apply Nat.eqb_neq in Hnl. rewrite Hnl. cbn [negb andb orb Nat.eqb].
        cbn [map snd add_in_order]. unfold and_then.
        destruct (Linker_call (CallAddNameSpec l) s) as [result s1].
        destruct (is_success result); cbn [negb]; [ apply Hrun | reflexivity ].
  - induction libs as [| [l pl] libs IHlibs]; intros Hvalid.
    + destruct (IHfiles [] (valid_positions_tail_files _ _ _ Hvalid))
        as (merged & Hperm & Hsorted & Hrun).
      destruct Hvalid as (Hsf & _ & Hnf & _ & _).
      exists ((pf, CallAddObject f) :: merged). repeat split.
      * cbn. apply perm_skip. exact Hperm.
      * constructor; [exact Hsorted | ].
        apply StronglySorted_inv in Hsf as [_ Hall].
        apply (Permutation_Forall (Permutation_sym Hperm)). cbn.
        rewrite app_nil_r. apply Forall_object_calls. exact Hall.
      * intros s. rewrite input_loop_eq. cbn [position_at].
        apply Forall_inv in Hnf. cbn in Hnf.
        apply Nat.eqb_neq in Hnf. rewrite Hnf. cbn [negb andb orb Nat.eqb].
        cbn [map snd add_in_order]. unfold and_then.
        destruct (Linker_call (CallAddObject f) s) as [result s1].
        destruct (is_success result); cbn [negb]; [ apply Hrun | reflexivity ].
    + pose proof Hvalid as (Hsf & Hsl & Hnf & Hnl & Hdis).
      assert (Hpf : pf <> O) by (apply Forall_inv in Hnf; exact Hnf).
      assert (Hpl : pl <> O) by (apply Forall_inv in Hnl; exact Hnl).
      assert (Hne : pf <> pl)
        by (apply (Hdis (f, pf) (l, pl)); left; reflexivity).
      apply Nat.eqb_neq in Hpf, Hpl.
      destruct (Nat.ltb_spec pf pl) as [Hlt | Hge].
      * destruct (IHfiles ((l, pl) :: libs)
                    (valid_positions_tail_files _ _ _ Hvalid))
          as (merged & Hperm & Hsorted & Hrun).
        exists ((pf, CallAddObject f) :: merged). repeat split.
        -- cbn. apply perm_skip. exact Hperm.
        -- constructor; [exact Hsorted | ].
           apply (Permutation_Forall (Permutation_sym Hperm)).
           apply Forall_app. split.
           ++ apply Forall_object_calls.
              apply StronglySorted_inv in Hsf as [_ Hall]. exact Hall.
           ++ apply Forall_namespec_calls.
              apply (positions_from_front pf (l, pl) libs Hlt Hsl).
        -- intros s. rewrite input_loop_eq. cbn [position_at].
           rewrite Hpf, Hpl.
           destruct (Nat.ltb_spec pf pl) as [_ | Hcontra]; [ | lia ].
           cbn [negb andb orb].
           cbn [map snd add_in_order]. unfold and_then.
           destruct (Linker_call (CallAddObject f) s) as [result s1].
           destruct (is_success result); cbn [negb];
             [ apply Hrun | reflexivity ].
      * assert (Hlt : (pl < pf)%nat) by lia.
        destruct (IHlibs (valid_positions_tail_libs _ _ _ Hvalid))
          as (merged & Hperm & Hsorted & Hrun).
        exists ((pl, CallAddNameSpec l) :: merged). repeat split.
        -- apply Permutation_sym.
           apply (Permutation_trans
                    (l' := (pl, CallAddNameSpec l)
                           :: object_calls ((f, pf) :: files)
                           ++ namespec_calls libs)).
           ++ apply Permutation_sym. apply Permutation_middle.
           ++ apply perm_skip. apply Permutation_sym. exact Hperm.
        -- constructor; [exact Hsorted | ].
           apply (Permutation_Forall (Permutation_sym Hperm)).
           apply Forall_app. split.
           ++ apply Forall_object_calls.
              apply (positions_from_front pl (f, pf) files Hlt Hsf).
           ++ apply Forall_namespec_calls.
              apply StronglySorted_inv in Hsl as [_ Hall]. exact Hall.
        -- intros s. rewrite input_loop_eq. cbn [position_at].
           rewrite Hpf, Hpl.
           destruct (Nat.ltb_spec pf pl) as [Hcontra | _]; [ lia | ].
           destruct (Nat.ltb_spec pl pf) as [_ | Hcontra]; [ | lia ].
           cbn [negb andb orb].
           cbn [map snd add_in_order]. unfold and_then.
           destruct (Linker_call (CallAddNameSpec l) s) as [result s1].
           destruct (is_success result); cbn [negb];
             [ apply Hrun | reflexivity ].
Qed.

(** ** How the stages end *)

Lemma errs_grown_intro (s s' : state) (text : string) :
  text <> EmptyString -> errs s' = (errs s ++ text)%string -> errs_grown s s'.
Proof. intros Hne H. exists text. split; assumption. Qed.

(** A call followed by the test of its result: the step every stage is
    made of. *)
Lemma call_step_outcome (c : linker_call) (message : ErrorCode -> string)
      (rest : action bool) (s : state) :
  accepted (linker s) ->
  (forall result, message result <> EmptyString) ->
  (forall s1, accepted (linker s1) -> stage_outcome s1 (rest s1)) ->
  stage_outcome s
    ((result <- Linker_call c ;;
      if negb (is_success result) then
        errs_print (message result) ;; pure false
      else rest) s).
Proof.
  intros Hacc Hmsg Hrest. unfold and_then, Linker_call.
  destruct (is_success (Linker_result (linker s) c)) eqn:Hres; cbn [negb].
  - apply is_success_true in Hres.
    match goal with |- stage_outcome _ (rest ?s1) => set (s1' := s1) end.
    assert (Hacc1 : accepted (linker s1'))
      by (apply accepted_snoc; assumption).
    destruct (Hrest s1' Hacc1) as (Houts & [added Hadded] & Hcase).
    split; [exact Houts | split].
    + exists ([c] ++ added). rewrite Hadded. subst s1'. cbn [linker].
      rewrite <- app_assoc. reflexivity.
    + destruct (fst (rest s1')); exact Hcase.
  - apply is_success_false in Hres. unfold errs_print, pure.
    cbn [fst snd outs errs linker]. repeat split.
    + exists [c]. reflexivity.
    + exists (message (Linker_result (linker s) c)). split; [apply Hmsg | reflexivity].
    + exists (linker s), c. repeat split; assumption.
Qed.

Lemma pure_true_outcome (s : state) :
  accepted (linker s) -> stage_outcome s (pure true s).
Proof.
  intros Hacc. unfold pure. cbn. repeat split; trivial.
  exists []. symmetry. apply app_nil_r.
Qed.

Lemma input_loop_outcome (files libs : list (string * nat)) (s : state) :
  accepted (linker s) -> stage_outcome s (input_loop files libs s).
Proof.
  revert libs s. induction files as [| [f pf] files IHfiles];
    induction libs as [| [l pl] libs IHlibs]; intros s Hacc;
    rewrite input_loop_eq; cbv zeta; cbn [position_at];
    repeat match goal with
           | |- context [if ?b then _ else _] =>
               lazymatch b with
               | fst _ => fail
               | _ => destruct b
               end
           end;
    try (apply pure_true_outcome; exact Hacc);
    apply call_step_outcome; trivial; try discriminate;
    intros; auto.
Qed.

Lemma PrepareInputOutput_outcome (pOutputPath : string) (s : state) :
  accepted (linker s) -> stage_outcome s (PrepareInputOutput pOutputPath s).
Proof.
  intros Hacc. unfold PrepareInputOutput.
  apply call_step_outcome; trivial; try discriminate.
  intros s1 Hacc1. apply input_loop_outcome. exact Hacc1.
Qed.

Lemma LinkFiles_outcome (s : state) :
  accepted (linker s) -> stage_outcome s (LinkFiles s).
Proof.
  intros Hacc. unfold LinkFiles.
  apply (call_step_outcome CallLink
           (fun result => ("Failed to linking! (detail: "
                           ++ GetErrorString result ++ newline)%string)
           (pure true)); trivial; try discriminate.
  intros s1 Hacc1. apply pure_true_outcome. exact Hacc1.
Qed.

Lemma stage_outcome_false (s : state) (r : bool * state) :
  stage_outcome s r -> fst r = false -> errs_grown s (snd r).
Proof.
  intros (_ & _ & Hcase) Hr. rewrite Hr in Hcase.
  destruct Hcase as [Htext _]. exact Htext.
Qed.

Lemma stage_outcome_true (s : state) (r : bool * state) :
  stage_outcome s r -> fst r = true ->
  errs (snd r) = errs s /\ accepted (linker (snd r)).
Proof. intros (_ & _ & Hcase) Hr. rewrite Hr in Hcase. exact Hcase. Qed.

Lemma stage_outcome_outs (s : state) (r : bool * state) :
  stage_outcome s r -> outs (snd r) = outs s.
Proof. intros (H & _). exact H. Qed.

(** ** The configuration *)

Lemma fold_left_set (K : string -> config_setting) (l : list string)
      (config : LinkerConfig) :
  fold_left (fun config x => set (K x) config) l config
  = {| constructed := constructed config;
       settings := settings config ++ map K l |}.
Proof.
  revert config. induction l as [| x l IH]; intros config; cbn [fold_left map].
  - rewrite app_nil_r. destruct config; reflexivity.
  - rewrite IH. unfold set. cbn [constructed settings].
    rewrite <- app_assoc. reflexivity.
Qed.

(** The setter calls of [ConfigLinker], one after the other, build
    [configuration]. *)
Lemma configuration_built (pOutputFilename : string) :
  let config :=
    {| constructed := if TARGET_BUILD then DefaultLinkerConfig
                      else LinkerConfigOfTriple OptTargetTriple;
       settings := [] |} in
  let config :=
    if negb (empty OptSOName) then setSOName OptSOName config
    else setSOName pOutputFilename config in
  let config :=
    if negb (empty OptSysRoot) then setSysRoot OptSysRoot config
    else config in
  let config :=
    if negb (empty OptDyld) then setDyld OptDyld config else config in
  let config :=
    fold_left (fun config wrap => addWrap wrap config)
              OptWrapList config in
  let config :=
    fold_left (fun config portable => addPortable portable config)
              OptPortableList config in
  let config :=
    fold_left (fun config sdir => addSearchDir sdir config)
              OptSearchDirList config in
  let config := addSearchDir "=/lib" config in
  let config := addSearchDir "=/usr/lib" config in
  let config := setShared OptShared config in
  let config := setBsymbolic OptBsymbolic config in
  config = configuration pOutputFilename.
Proof.
  cbv zeta.
  unfold setBsymbolic, setShared, addSearchDir, addPortable, addWrap,
    setDyld, setSysRoot, setSOName.
  rewrite !fold_left_set. unfold configuration, set.
  destruct (empty OptSOName), (empty OptSysRoot), (empty OptDyld);
    cbn [negb constructed settings app];
    rewrite ?map_app, <- ?app_assoc; reflexivity.
Qed.

Lemma ConfigLinker_allocated (pOutputFilename : string) (s : state) :
  new_nothrow_succeeds = true ->
  ConfigLinker pOutputFilename s
  = (result <- Linker_call (CallConfig (configuration pOutputFilename)) ;;
     if negb (is_success result) then
       errs_print ("Failed to configure the linker! (detail: "
                   ++ GetErrorString result ++ ")" ++ newline) ;;
       pure false
     else pure true) s.
Proof.
  intros Halloc. unfold ConfigLinker. rewrite Halloc. cbn [negb].
  cbv zeta. rewrite (configuration_built pOutputFilename). reflexivity.
Qed.

Lemma ConfigLinker_not_allocated (pOutputFilename : string) (s : state) :
  new_nothrow_succeeds = false ->
  ConfigLinker pOutputFilename s
  = (false,
     {| outs := outs s;
        errs := errs s
                ++ "Out of memory when create the linker configuration!"
                ++ newline;
        linker := linker s |}).
Proof.
  intros Halloc. unfold ConfigLinker. rewrite Halloc. reflexivity.
Qed.

Lemma ConfigLinker_outcome (pOutputFilename : string) (s : state) :
  new_nothrow_succeeds = true -> accepted (linker s) ->
  stage_outcome s (ConfigLinker pOutputFilename s).
Proof.
  intros Halloc Hacc. rewrite (ConfigLinker_allocated _ _ Halloc).
  apply call_step_outcome; trivial; try discriminate.
  intros s1 Hacc1. apply pure_true_outcome. exact Hacc1.
Qed.

(** X12: [ConfigLinker] makes no call on the linker when the configuration
    cannot be allocated.  Otherwise it makes one call, [config], with the
    configuration that holds, in this order: the soname (the output name
    when [-soname] is not given), the sysroot and the dynamic linker when
    given, the wrapped and the portable symbols, the [-L] directories
    followed by [=/lib] and [=/usr/lib], the output type and
    [-Bsymbolic]; and it returns whether the linker accepted it. *)
Theorem ConfigLinker_one_call (pOutputFilename : string) (s : state) :
  (new_nothrow_succeeds = false ->
   fst (ConfigLinker pOutputFilename s) = false
   /\ linker (snd (ConfigLinker pOutputFilename s)) = linker s)
  /\ (new_nothrow_succeeds = true ->
      fst (ConfigLinker pOutputFilename s)
      = is_success (Linker_result (linker s)
                      (CallConfig (configuration pOutputFilename)))
      /\ linker (snd (ConfigLinker pOutputFilename s))
         = linker s ++ [CallConfig (configuration pOutputFilename)]).
Proof.
  split; intros Halloc.
  - rewrite (ConfigLinker_not_allocated _ _ Halloc). split; reflexivity.
  - rewrite (ConfigLinker_allocated _ _ Halloc).
    unfold and_then, Linker_call.
    destruct (is_success
                (Linker_result (linker s)
                   (CallConfig (configuration pOutputFilename))));
      split; reflexivity.
Qed.

(** ** The output name *)

Lemma empty_true (t : string) : empty t = true <-> t = EmptyString.
Proof. destruct t; cbn; split; congruence. Qed.

(** [DetermineOutputFilename] leaves the linker and [outs] alone and only
    adds to [errs]; when it returns the empty name, either it has printed
    why, or the path computed beside the input is itself empty. *)
Lemma DetermineOutputFilename_outcome (pOutputPath : string) (s : state) :
  let r := DetermineOutputFilename pOutputPath s in
  outs (snd r) = outs s
  /\ linker (snd r) = linker s
  /\ errs_extended s (snd r)
  /\ (fst r = EmptyString ->
      errs_grown s (snd r)
      \/ exists abs,
          c_str (path_append (remove_filename abs) "a.out") = EmptyString).
Proof.
  unfold DetermineOutputFilename.
  destruct (empty pOutputPath) eqn:Hempty; cbn [negb].
  - destruct (1 <? List.length OptInputObjectFiles)%nat.
    + unfold and_then, errs_print, pure. cbn.
      repeat split; [ eexists; reflexivity | discriminate ].
    + cbv zeta.
      destruct (make_absolute
                  (fst (nth 0 OptInputObjectFiles (EmptyString, O))))
        as [abs | message].
      * unfold pure. cbn [fst snd].
        repeat split; [ apply errs_extended_refl | ].
        intros Hc. right. eexists. exact Hc.
      * unfold and_then, errs_print, pure. cbn [fst snd outs errs linker].
        repeat split; [ eexists; reflexivity | ].
        intros _. left. eapply errs_grown_intro; [ | reflexivity ].
        discriminate.
  - unfold pure. cbn [fst snd].
    repeat split; [ apply errs_extended_refl | ].
    intros ->. discriminate.
Qed.

(** X13: [DetermineOutputFilename] returns the empty name, on which [main]
    gives up, in one situation only: no [-o], at most one input, and the
    path of that input cannot be made absolute (or the name computed in
    its directory is empty). *)
Theorem DetermineOutputFilename_empty_iff (s : state) :
  fst (DetermineOutputFilename OptOutputFilename s) = EmptyString
  <-> OptOutputFilename = EmptyString
      /\ (List.length OptInputObjectFiles <= 1)%nat
      /\ match make_absolute
                 (fst (nth 0 OptInputObjectFiles (EmptyString, O))) with
         | AbsoluteError _ => True
         | AbsoluteOk abs =>
             c_str (path_append (remove_filename abs) "a.out") = EmptyString
         end.
Proof.
  unfold DetermineOutputFilename.
  destruct (empty OptOutputFilename) eqn:Hempty; cbn [negb].
  - apply empty_true in Hempty.
    destruct (Nat.ltb_spec 1 (List.length OptInputObjectFiles)) as [Hlt | Hle].
    + unfold and_then, errs_print, pure. cbn [fst].
      split; [ discriminate | ]. intros (_ & Hlen & _). lia.
    + cbv zeta.
      destruct (make_absolute
                  (fst (nth 0 OptInputObjectFiles (EmptyString, O))))
        as [abs | message].
      * unfold pure. cbn [fst]. tauto.
      * unfold and_then, errs_print, pure. cbn [fst]. tauto.
  - unfold pure. cbn [fst]. split.
    + intros H. rewrite H in Hempty. discriminate.
    + intros (H & _). rewrite H in Hempty. discriminate.
Qed.

(** ** [main] *)

(** The stages of [main], one after the other. *)
Lemma main_eq (s : state) :
  main s
  = (let (OutputFilename, s1) :=
       DetermineOutputFilename OptOutputFilename s in
     if empty OutputFilename then (EXIT_FAILURE, s1)
     else
       let s2 := {| outs := outs s1; errs := errs s1; linker := [] |} in
       let (configured, s3) := ConfigLinker OutputFilename s2 in
       if negb configured then (EXIT_FAILURE, s3)
       else
         let (prepared, s4) := PrepareInputOutput OutputFilename s3 in
         if negb prepared then (EXIT_FAILURE, s4)
         else
           let (linked, s5) := LinkFiles s4 in
           if negb linked then (EXIT_FAILURE, s5)
           else (EXIT_SUCCESS, s5)).
Proof.
  unfold main, and_then, Linker_new, pure.
  destruct (DetermineOutputFilename OptOutputFilename s) as [out s1].
  destruct (empty out); [ reflexivity | ].
  destruct (ConfigLinker out _) as [[|] s3]; cbn [negb]; [ | reflexivity ].
  destruct (PrepareInputOutput out s3) as [[|] s4]; cbn [negb];
    [ | reflexivity ].
  destruct (LinkFiles s4) as [[|] s5]; reflexivity.
Qed.

Lemma add_in_order_true (inputs : list linker_call) (s s' : state) :
  add_in_order inputs s = (true, s') ->
  linker s' = linker s ++ inputs.
Proof.
  revert s. induction inputs as [| c inputs IH]; intros s; cbn [add_in_order].
  - unfold pure. intros [= <-]. symmetry. apply app_nil_r.
  - unfold and_then, Linker_call.
    destruct (is_success (Linker_result (linker s) c)); cbn [negb].
    + intros H. apply IH in H. rewrite H. cbn [linker].
      rewrite <- app_assoc. reflexivity.
    + unfold errs_print, pure. discriminate.
Qed.

Lemma PrepareInputOutput_true (pOutputPath : string) (s s' : state) :
  valid_positions OptInputObjectFiles OptNameSpecList ->
  PrepareInputOutput pOutputPath s = (true, s') ->
  exists merged : list (nat * linker_call),
    Permutation merged (object_calls OptInputObjectFiles
                        ++ namespec_calls OptNameSpecList)
    /\ by_position merged
    /\ linker s' = linker s ++ CallSetOutput pOutputPath :: map snd merged.
Proof.
  intros Hvalid.
  destruct (input_loop_in_order _ _ Hvalid) as (merged & Hperm & Hsorted & Hrun).
  unfold PrepareInputOutput, and_then, Linker_call.
  destruct (is_success (Linker_result (linker s) (CallSetOutput pOutputPath)));
    cbn [negb].
  - rewrite Hrun. intros H. apply add_in_order_true in H.
    exists merged. repeat split; trivial.
    rewrite H. cbn [linker]. rewrite <- app_assoc. reflexivity.
  - unfold errs_print, pure. discriminate.
Qed.

Lemma LinkFiles_true (s s' : state) :
  LinkFiles s = (true, s') ->
  linker s' = linker s ++ [CallLink]
  /\ Linker_result (linker s) CallLink = kSuccess.
Proof.
  unfold LinkFiles, and_then, Linker_call.
  destruct (is_success (Linker_result (linker s) CallLink)) eqn:Hres;
    cbn [negb].
  - unfold pure. intros [= <-]. split; [ reflexivity | ].
    apply is_success_true. exact Hres.
  - unfold errs_print, pure. discriminate.
Qed.

Lemma ConfigLinker_true (pOutputFilename : string) (s s' : state) :
  ConfigLinker pOutputFilename s = (true, s') ->
  new_nothrow_succeeds = true
  /\ linker s' = linker s ++ [CallConfig (configuration pOutputFilename)].
Proof.
  destruct new_nothrow_succeeds eqn:Halloc.
  - rewrite (ConfigLinker_allocated _ _ Halloc).
    unfold and_then, Linker_call.
    destruct (is_success _); cbn [negb].
    + unfold pure. intros [= <-]. split; reflexivity.
    + unfold errs_print, pure. discriminate.
  - rewrite (ConfigLinker_not_allocated _ _ Halloc). discriminate.
Qed.

(** X14: a successful run did all of the work: when [main] returns
    [EXIT_SUCCESS] on a command line with valid positions, the linker has
    received, from a fresh state, the configuration, the output name
    (which is not empty), every input file and namespec once, in the
    order of the command line, and the order to link; and it accepted
    every one of these calls. *)
Theorem main_success_sequence (s s' : state) :
  valid_positions OptInputObjectFiles OptNameSpecList ->
  main s = (EXIT_SUCCESS, s') ->
  exists (OutputFilename : string) (merged : list (nat * linker_call)),
    OutputFilename <> EmptyString
    /\ Permutation merged (object_calls OptInputObjectFiles
                           ++ namespec_calls OptNameSpecList)
    /\ by_position merged
    /\ linker s'
       = [CallConfig (configuration OutputFilename);
          CallSetOutput OutputFilename]
         ++ map snd merged ++ [CallLink]
    /\ accepted (linker s').
Proof.
  intros Hvalid. rewrite main_eq.
  destruct (DetermineOutputFilename OptOutputFilename s) as [out s1].
  destruct (empty out) eqn:Hout; [ discriminate | ].
  cbv zeta.
  set (s2 := {| outs := outs s1; errs := errs s1; linker := [] |}).
  destruct (ConfigLinker out s2) as [[|] s3] eqn:Hconfig; cbn [negb];
    [ | discriminate ].
  destruct (PrepareInputOutput out s3) as [[|] s4] eqn:Hprepare; cbn [negb];
    [ | discriminate ].
  destruct (LinkFiles s4) as [[|] s5] eqn:Hlink; cbn [negb];
    [ | discriminate ].
  intros [= <-].
  pose proof (ConfigLinker_true _ _ _ Hconfig) as [Halloc Hl3].
  destruct (PrepareInputOutput_true _ _ _ Hvalid Hprepare)
    as (merged & Hperm & Hsorted & Hl4).
  pose proof (LinkFiles_true _ _ Hlink) as [Hl5 Hres].
  assert (Hacc2 : accepted (linker s2)) by constructor.
  pose proof (ConfigLinker_outcome out s2 Halloc Hacc2) as Ho3.
  rewrite Hconfig in Ho3.
  apply stage_outcome_true in Ho3 as [_ Hacc3]; [ | reflexivity ].
  pose proof (PrepareInputOutput_outcome out s3 Hacc3) as Ho4.
  rewrite Hprepare in Ho4.
  apply stage_outcome_true in Ho4 as [_ Hacc4]; [ | reflexivity ].
  cbn [snd] in *.
  exists out, merged. repeat split; trivial.
  - intros ->. discriminate.
  - rewrite Hl5, Hl4, Hl3. cbn [linker s2 app]. reflexivity.
  - rewrite Hl5. apply accepted_snoc; assumption.
Qed.

(** X15: no failure is silent: when the path [a.out] placed in the
    directory of an input is never empty, [main] returns nothing but
    [EXIT_SUCCESS] or [EXIT_FAILURE], and a run of [main] that returns
    [EXIT_FAILURE] has written a message to [errs]. *)
Theorem main_failure_reported (s : state) :
  (forall abs,
      c_str (path_append (remove_filename abs) "a.out") <> EmptyString) ->
  (fst (main s) = EXIT_SUCCESS \/ fst (main s) = EXIT_FAILURE)
  /\ (fst (main s) = EXIT_FAILURE -> errs_grown s (snd (main s))).
Proof.
  intros Hpath. rewrite main_eq.
  pose proof (DetermineOutputFilename_outcome OptOutputFilename s) as Hdof.
  cbv zeta in Hdof.
  destruct (DetermineOutputFilename OptOutputFilename s) as [out s1].
  cbn [fst snd] in Hdof. destruct Hdof as (_ & _ & Hext1 & Hempty1).
  destruct (empty out) eqn:Hout.
  { cbn [fst snd]. split; [ right; reflexivity | ].
    intros _. apply empty_true in Hout.
    destruct (Hempty1 Hout) as [Hgrown | [p Hp]]; [ exact Hgrown | ].
    exfalso. exact (Hpath p Hp). }
  cbv zeta.
  set (s2 := {| outs := outs s1; errs := errs s1; linker := [] |}).
  assert (Hext2 : errs_extended s s2) by exact Hext1.
  assert (Hacc2 : accepted (linker s2)) by constructor.
  destruct new_nothrow_succeeds eqn:Halloc.
  2:{ rewrite (ConfigLinker_not_allocated out s2 Halloc). cbn [negb fst snd].
      split; [ right; reflexivity | ].
      intros _. apply (errs_extended_grown s s2); [ exact Hext2 | ].
      eapply errs_grown_intro; [ | reflexivity ]. discriminate. }
  pose proof (ConfigLinker_outcome out s2 Halloc Hacc2) as Ho3.
  destruct (ConfigLinker out s2) as [[|] s3]; cbn [negb].
  2:{ cbn [fst snd]. split; [ right; reflexivity | ].
      intros _. apply (errs_extended_grown s s2); [ exact Hext2 | ].
      apply (stage_outcome_false _ _ Ho3). reflexivity. }
  apply stage_outcome_true in Ho3 as [Herrs3 Hacc3]; [ | reflexivity ].
  cbn [snd] in Herrs3, Hacc3.
  assert (Hext3 : errs_extended s s3)
    by (destruct Hext2 as [t Ht]; exists t; rewrite Herrs3; exact Ht).
  pose proof (PrepareInputOutput_outcome out s3 Hacc3) as Ho4.
  destruct (PrepareInputOutput out s3) as [[|] s4]; cbn [negb].
  2:{ cbn [fst snd]. split; [ right; reflexivity | ].
      intros _. apply (errs_extended_grown s s3); [ exact Hext3 | ].
      apply (stage_outcome_false _ _ Ho4). reflexivity. }
  apply stage_outcome_true in Ho4 as [Herrs4 Hacc4]; [ | reflexivity ].
  cbn [snd] in Herrs4, Hacc4.
  assert (Hext4 : errs_extended s s4)
    by (destruct Hext3 as [t Ht]; exists t; rewrite Herrs4; exact Ht).
  pose proof (LinkFiles_outcome s4 Hacc4) as Ho5.
  destruct (LinkFiles s4) as [[|] s5]; cbn [negb fst snd].
  - split; [ left; reflexivity | discriminate ].
  - split; [ right; reflexivity | ].
    intros _. apply (errs_extended_grown s s4); [ exact Hext4 | ].
    apply (stage_outcome_false _ _ Ho5). reflexivity.
Qed.

(** How far [add_in_order] gets. *)
Lemma add_in_order_false (inputs : list linker_call) (s s' : state) :
  add_in_order inputs s = (false, s') ->
  exists pre c post,
    inputs = pre ++ c :: post
    /\ linker s' = linker s ++ pre ++ [c]
    /\ Linker_result (linker s ++ pre) c <> kSuccess.
Proof.
  revert s. induction inputs as [| c inputs IH]; intros s; cbn [add_in_order].
  - unfold pure. discriminate.
  - unfold and_then, Linker_call.
    destruct (is_success (Linker_result (linker s) c)) eqn:Hres; cbn [negb].
    + intros H. apply IH in H as (pre & c' & post & -> & Hl & Hfail).
      cbn [linker] in Hl, Hfail. rewrite <- app_assoc in Hl, Hfail.
      exists (c :: pre), c', post. repeat split; assumption.
    + unfold errs_print, pure. intros [= <-]. cbn [linker].
      exists [], c, inputs. rewrite app_nil_r.
      repeat split. apply is_success_false. exact Hres.
Qed.

(** What the linker answered to the calls [add_in_order] made. *)
Lemma add_in_order_answers (inputs : list linker_call) (s : state) :
  let r := add_in_order inputs s in
  (fst r = true ->
   linker (snd r) = linker s ++ inputs
   /\ accepted_after (linker s) inputs)
  /\ (fst r = false ->
      exists pre c post,
        inputs = pre ++ c :: post
        /\ linker (snd r) = linker s ++ pre ++ [c]
        /\ accepted_after (linker s) pre
        /\ Linker_result (linker s ++ pre) c <> kSuccess).
Proof.
  revert s. induction inputs as [| c inputs IH]; intros s;
    cbn [add_in_order]; cbv zeta.
  - unfold pure. cbn [fst snd accepted_after]. split.
    + intros _. split; [ symmetry; apply app_nil_r | exact I ].
    + discriminate.
  - unfold and_then, Linker_call.
    destruct (is_success (Linker_result (linker s) c)) eqn:Hres; cbn [negb].
    + apply is_success_true in Hres.
      match goal with
      | |- context [add_in_order inputs ?s1] =>
          specialize (IH s1); cbv zeta in IH;
          destruct (add_in_order inputs s1) as [ok s'] eqn:Hrun
      end.
      cbn [fst snd linker] in *. destruct IH as [IHtrue IHfalse]. split.
      * intros Hok. destruct (IHtrue Hok) as [Hl Hacc].
        rewrite Hl, <- app_assoc. cbn [accepted_after]. repeat split; trivial.
      * intros Hok.
        destruct (IHfalse Hok) as (pre & c' & post & -> & Hl & Hacc & Hfail).
        rewrite <- app_assoc in Hl, Hfail.
        exists (c :: pre), c', post. cbn [accepted_after].
        repeat split; trivial.
    + apply is_success_false in Hres. unfold errs_print, pure.
      cbn [fst snd linker]. split; [ discriminate | ].
      intros _. exists [], c, inputs. rewrite app_nil_r.
      cbn [accepted_after app]. repeat split; trivial.
Qed.

(** X11: [PrepareInputOutput] sets the output, then adds the input files
    and the namespecs in the order of the command line, whatever list they
    come from.  It returns [true] when the linker has received all of
    them, each once, and has accepted every call; it returns [false] right
    after the first call that the linker refuses: the calls before it were
    all accepted, and none is made after it. *)
Theorem PrepareInputOutput_in_command_line_order (pOutputPath : string) :
  valid_positions OptInputObjectFiles OptNameSpecList ->
  exists merged : list (nat * linker_call),
    Permutation merged (object_calls OptInputObjectFiles
                        ++ namespec_calls OptNameSpecList)
    /\ by_position merged
    /\ forall s : state,
        let r := PrepareInputOutput pOutputPath s in
        let sequence := CallSetOutput pOutputPath :: map snd merged in
        (fst r = true ->
         linker (snd r) = linker s ++ sequence
         /\ accepted_after (linker s) sequence)
        /\ (fst r = false ->
            exists pre c post,
              sequence = pre ++ c :: post
              /\ linker (snd r) = linker s ++ pre ++ [c]
              /\ accepted_after (linker s) pre
              /\ Linker_result (linker s ++ pre) c <> kSuccess).
Proof.
  intros Hvalid.
  destruct (input_loop_in_order _ _ Hvalid)
    as (merged & Hperm & Hsorted & Hrun).
  exists merged. split; [ exact Hperm | split; [ exact Hsorted | ] ].
  intros s. cbv zeta.
  unfold PrepareInputOutput, and_then, Linker_call.
  destruct (is_success
              (Linker_result (linker s) (CallSetOutput pOutputPath)))
    eqn:Hres; cbn [negb].
  - apply is_success_true in Hres. rewrite Hrun.
    match goal with
    | |- context [add_in_order ?inputs ?s1] =>
        pose proof (add_in_order_answers inputs s1) as Hanswers;
        cbv zeta in Hanswers;
        destruct (add_in_order inputs s1) as [ok s'] eqn:Hadd
    end.
    cbn [fst snd linker] in *. destruct Hanswers as [Htrue Hfalse]. split.
    + intros Hok. destruct (Htrue Hok) as [Hl Hacc].
      rewrite Hl, <- app_assoc. cbn [accepted_after].
      repeat split; trivial.
    + intros Hok.
      destruct (Hfalse Hok) as (pre & c & post & Hseq & Hl & Hacc & Hfail).
      rewrite <- app_assoc in Hl, Hfail.
      exists (CallSetOutput pOutputPath :: pre), c, post.
      rewrite Hseq. cbn [accepted_after]. repeat split; trivial.
  - apply is_success_false in Hres. unfold errs_print, pure.
    cbn [fst snd linker]. split; [ discriminate | ].
    intros _. exists [], (CallSetOutput pOutputPath), (map snd merged).
    rewrite app_nil_r. cbn [accepted_after app]. repeat split; trivial.
Qed.

(** X16: [main] never calls the linker again after a call that was refused.
    At the end of a run either the linker was not reached (no output
    name, or no configuration), or the last call it received follows calls
    that were all accepted, and [main] returns [EXIT_SUCCESS] exactly when
    that last call, which is then the order to link, was accepted too. *)
Theorem main_stops_at_first_refusal (s : state) :
  let code := fst (main s) in
  let s' := snd (main s) in
  (code = EXIT_FAILURE /\ linker s' = linker s)
  \/ (code = EXIT_FAILURE /\ linker s' = [])
  \/ exists history c,
       linker s' = history ++ [c]
       /\ accepted history
       /\ (Linker_result history c = kSuccess <-> code = EXIT_SUCCESS)
       /\ (code = EXIT_SUCCESS -> c = CallLink).
Proof.
  cbv zeta. rewrite main_eq.
  pose proof (DetermineOutputFilename_outcome OptOutputFilename s) as Hdof.
  cbv zeta in Hdof.
  destruct (DetermineOutputFilename OptOutputFilename s) as [out s1].
  cbn [fst snd] in Hdof. destruct Hdof as (_ & Hl1 & _).
  destruct (empty out); [ left; split; [ reflexivity | exact Hl1 ] | ].
  cbv zeta.
  set (s2 := {| outs := outs s1; errs := errs s1; linker := [] |}).
  assert (Hacc2 : accepted (linker s2)) by constructor.
  assert (Hrefused :
            forall (s0 : state) (r : bool * state),
              stage_outcome s0 r -> fst r = false ->
              exists history c,
                linker (snd r) = history ++ [c]
                /\ accepted history
                /\ (Linker_result history c = kSuccess
                    <-> EXIT_FAILURE = EXIT_SUCCESS)
                /\ (EXIT_FAILURE = EXIT_SUCCESS -> c = CallLink)).
  { intros s0 r (_ & _ & Hcase) Hr. rewrite Hr in Hcase.
    destruct Hcase as (_ & history & c & Hl & Hacc & Hfail).
    exists history, c. repeat split; trivial; try discriminate.
    intros Hok. contradiction. }
  destruct new_nothrow_succeeds eqn:Halloc.
  2:{ rewrite (ConfigLinker_not_allocated out s2 Halloc). cbn [negb fst snd].
      right; left. split; reflexivity. }
  pose proof (ConfigLinker_outcome out s2 Halloc Hacc2) as Ho3.
  destruct (ConfigLinker out s2) as [[|] s3]; cbn [negb].
  2:{ right; right. apply (Hrefused _ _ Ho3). reflexivity. }
  apply stage_outcome_true in Ho3 as [_ Hacc3]; [ | reflexivity ].
  cbn [snd] in Hacc3.
  pose proof (PrepareInputOutput_outcome out s3 Hacc3) as Ho4.
  destruct (PrepareInputOutput out s3) as [[|] s4]; cbn [negb].
  2:{ right; right. apply (Hrefused _ _ Ho4). reflexivity. }
  apply stage_outcome_true in Ho4 as [_ Hacc4]; [ | reflexivity ].
  cbn [snd] in Hacc4.
  pose proof (LinkFiles_outcome s4 Hacc4) as Ho5.
  destruct (LinkFiles s4) as [[|] s5] eqn:Hlink; cbn [negb].
  2:{ right; right. apply (Hrefused _ _ Ho5). reflexivity. }
  right; right. apply LinkFiles_true in Hlink as [Hl5 Hres].
  exists (linker s4), CallLink. cbn [fst snd].
  repeat split; trivial.
Qed.

End DriverFacts.

(** ** The driver on a command line *)

Lemma demo_valid_positions :
  valid_positions (@OptInputObjectFiles demo_command_line)
                  (@OptNameSpecList demo_command_line).
Proof.
  unfold valid_positions. cbn.
  repeat apply conj.
  - repeat constructor.
  - repeat constructor.
  - repeat constructor; discriminate.
  - repeat constructor; discriminate.
  - intros f l [<- | [<- | []]] [<- | []]; discriminate.
Defined.

Lemma demo_path_not_empty (abs : string) :
  c_str (@path_append demo_externals
           (@remove_filename demo_externals abs) "a.out")
  <> EmptyString.
Proof. cbn. discriminate. Defined.

Lemma ConfigLinker_one_call_witness :
  fst (@ConfigLinker demo_externals demo_command_line "out.so" initial)
  = true
  /\ linker (snd (@ConfigLinker demo_externals demo_command_line
                    "out.so" initial))
     = [CallConfig
          {| constructed := LinkerConfigOfTriple "armv7-none-linux-gnueabi";
             settings := [SOName "out.so"; SearchDir "/vendor/lib";
                          SearchDir "=/lib"; SearchDir "=/usr/lib";
                          Shared true; Bsymbolic true] |}].
Proof.
  exact (proj2 (@ConfigLinker_one_call demo_externals demo_command_line
                  "out.so" initial) eq_refl).
Defined.

Lemma PrepareInputOutput_in_command_line_order_witness :
  exists merged : list (nat * linker_call),
    Permutation merged
      (object_calls (@OptInputObjectFiles demo_command_line)
       ++ namespec_calls (@OptNameSpecList demo_command_line))
    /\ by_position merged
    /\ forall s : state,
        let r := @PrepareInputOutput demo_externals demo_command_line
                   "out.so" s in
        let sequence := CallSetOutput "out.so" :: map snd merged in
        (fst r = true ->
         linker (snd r) = linker s ++ sequence
         /\ @accepted_after demo_externals (linker s) sequence)
        /\ (fst r = false ->
            exists pre c post,
              sequence = pre ++ c :: post
              /\ linker (snd r) = linker s ++ pre ++ [c]
              /\ @accepted_after demo_externals (linker s) pre
              /\ @Linker_result demo_externals (linker s ++ pre) c
                 <> @kSuccess demo_externals).
Proof.
  exact (@PrepareInputOutput_in_command_line_order demo_externals
           demo_command_line "out.so" demo_valid_positions).
Defined.

Lemma main_success_sequence_witness :
  exists (OutputFilename : string) (merged : list (nat * linker_call)),
    OutputFilename <> EmptyString
    /\ Permutation merged
         (object_calls (@OptInputObjectFiles demo_command_line)
          ++ namespec_calls (@OptNameSpecList demo_command_line))
    /\ by_position merged
    /\ linker (snd (@Mcld.main demo_externals demo_command_line initial))
       = [CallConfig (@configuration demo_externals demo_command_line
                        OutputFilename);
          CallSetOutput OutputFilename]
         ++ map snd merged ++ [CallLink]
    /\ @accepted demo_externals
         (linker (snd (@Mcld.main demo_externals demo_command_line initial))).
Proof.
  exact (@main_success_sequence demo_externals demo_command_line initial
           (snd (@Mcld.main demo_externals demo_command_line initial))
           demo_valid_positions eq_refl).
Defined.

Lemma main_failure_reported_witness :
  fst (@Mcld.main demo_externals demo_refused_command_line initial)
  = EXIT_FAILURE
  /\ errs_grown initial
       (snd (@Mcld.main demo_externals demo_refused_command_line initial)).
Proof.
  split; [ reflexivity | ].
  exact (proj2 (@main_failure_reported demo_externals
                  demo_refused_command_line initial
                  demo_path_not_empty) eq_refl).
Defined.

End McldFacts.
